(** * react-use-debounce: the three hooks of [src/index.ts]

  The hooks are embedded as functions on the cells they keep between
  renders ([useRef], [useState]) and on the state of the host they call
  into: a clock, the timer service ([setTimeout], [clearTimeout]) and a
  log of the calls made to the wrapped function.  A component instance
  is driven by a trace of events: renders, calls of the debounced
  handle, the passing of time and the unmount. *)

From Stdlib Require Import ZArith List Bool Lia String.
Import ListNotations.
Open Scope Z_scope.

(** ** The host: clock, timers and the log of calls *)

Module Host.

(** Which piece of code made a call to the wrapped function: the callback
  given to [setTimeout], or the cleanup of the effect.  The field is
  bookkeeping of the model; the program does not read it. *)
Inductive origin := ByTimer | ByCleanup.

(** The delay that the timer takes.  [setTimeout] of the DOM, whose timer
    id is the [number] that [timeoutRef] holds, converts its delay to a
    signed 32-bit integer, wrapping around, and counts a negative result
    as zero: a delay up to [max_delay] is taken as it is, a delay of
    [2^31] fires at once.  (Node's timer takes 1 ms for a delay above
    [max_delay]; the facts below that name the delay itself are stated
    for delays up to [max_delay].) *)
Definition max_delay : Z := 2147483647.

Definition to_int32 (d : Z) : Z := (d + 2147483648) mod 4294967296 - 2147483648.

Definition timeout (delay : Z) : Z := Z.max 0 (to_int32 delay).

Section Host.
Variables Func Args : Type.

(** The wrapped function is opaque: a call to it is recorded with the
    time, the function reference and the argument tuple. *)
Record invocation := Invocation {
  inv_time : Z;
  inv_func : Func;
  inv_args : Args;
  inv_by : origin
}.

(** A pending timer holds the closure [() => func(...args)]. *)
Record timer := Timer {
  tm_id : nat;
  tm_due : Z;
  tm_func : Func;
  tm_args : Args
}.

Record host := {
  now : Z;
  next_id : nat;
  timers : list timer;
  log : list invocation
}.

Definition boot : host :=
  {| now := 0; next_id := 1; timers := []; log := [] |}.

(** [func(...args)] *)
Definition invoke (f : Func) (a : Args) (o : origin) (w : host) : host :=
  {| now := now w; next_id := next_id w; timers := timers w;
     log := log w ++ [Invocation (now w) f a o] |}.

(** [setTimeout(() => func(...args), delay)]: a fresh id, due after
    [timeout delay]. *)
Definition setTimeout (f : Func) (a : Args) (delay : Z) (w : host)
  : nat * host :=
  (next_id w,
   {| now := now w; next_id := S (next_id w);
      timers := timers w ++ [Timer (next_id w) (now w + timeout delay) f a];
      log := log w |}).

(** [clearTimeout(id)]: nothing happens for [undefined] or for an id
    that is not pending. *)
Definition clearTimeout (id : option nat) (w : host) : host :=
  match id with
  | None => w
  | Some i =>
      {| now := now w; next_id := next_id w;
         timers := filter (fun tm => negb (Nat.eqb (tm_id tm) i)) (timers w);
         log := log w |}
  end.

Definition is_due (t : Z) (tm : timer) : bool := tm_due tm <=? t.

Fixpoint insert_by_due (tm : timer) (l : list timer) : list timer :=
  match l with
  | [] => [tm]
  | x :: l' =>
      if tm_due tm <=? tm_due x then tm :: l else x :: insert_by_due tm l'
  end.

(** Timers fire by due time, and in the order they were set among
    those due at the same time. *)
Definition fire_order (l : list timer) : list timer :=
  fold_right insert_by_due [] l.

Definition fire (t0 : Z) (tm : timer) : invocation :=
  Invocation (Z.max t0 (tm_due tm)) (tm_func tm) (tm_args tm) ByTimer.

(** The event loop is idle for [d] milliseconds: every timer that comes
    due runs its closure and is gone. *)
Definition elapse (d : Z) (w : host) : host :=
  let t := now w + Z.max 0 d in
  {| now := t; next_id := next_id w;
     timers := filter (fun tm => negb (is_due t tm)) (timers w);
     log := log w ++ map (fire (now w)) (fire_order (filter (is_due t) (timers w))) |}.

(** The cell [r] knows every pending timer: there is none, or one, and
    [r] holds its id. *)
Definition single (r : option nat) (w : host) : Prop :=
  timers w = [] \/ exists tm, timers w = [tm] /\ r = Some (tm_id tm).

End Host.

Arguments Invocation {Func Args}.
Arguments inv_time {Func Args}.
Arguments inv_func {Func Args}.
Arguments inv_args {Func Args}.
Arguments inv_by {Func Args}.
Arguments Timer {Func Args}.
Arguments tm_id {Func Args}.
Arguments tm_due {Func Args}.
Arguments tm_func {Func Args}.
Arguments tm_args {Func Args}.
Arguments now {Func Args}.
Arguments next_id {Func Args}.
Arguments timers {Func Args}.
Arguments log {Func Args}.
Arguments boot {Func Args}.
Arguments invoke {Func Args}.
Arguments setTimeout {Func Args}.
Arguments clearTimeout {Func Args}.
Arguments is_due {Func Args}.
Arguments insert_by_due {Func Args}.
Arguments fire_order {Func Args}.
Arguments fire {Func Args}.
Arguments elapse {Func Args}.
Arguments single {Func Args}.
Arguments timeout : simpl never.

End Host.

Import Host.

(** The handle a hook returns is the closure made by [useCallback]; it
    holds the [func] and the [delay] of the render that made it. *)
Record handle (Func : Type) := Handle { h_func : Func; h_delay : Z }.
Arguments Handle {Func}.
Arguments h_func {Func}.
Arguments h_delay {Func}.

(** A burst of calls is given by the arguments of the first call and, for
    each later call, the time since the call before it and its arguments. *)
Definition span {Args : Type} (rest : list (Z * Args)) : Z :=
  fold_right (fun p acc => Z.max 0 (fst p) + acc) 0 rest.

Definition last_args {Args : Type} (a : Args) (rest : list (Z * Args)) : Args :=
  fold_left (fun _ p => snd p) rest a.

(** ** [useUnsafeDebounce] *)

Module Unsafe.
Section Unsafe.
Variables Func Args : Type.

Record refs := { timeoutRef : option nat }.

Record inst := {
  cells : refs;
  mounted : bool;
  world : host Func Args
}.

(** One render: the hook returns the handle, no cell is written. *)
Definition useUnsafeDebounce (func : Func) (delay : Z) (c : refs)
  : handle Func * refs :=
  (Handle func delay, c).

(** The body of the handle. *)
Definition debounced (h : handle Func) (args : Args) (c : refs)
  (w : host Func Args) : refs * host Func Args :=
  let w1 := clearTimeout (timeoutRef c) w in
  let '(id, w2) := setTimeout (h_func h) args (h_delay h) w1 in
  ({| timeoutRef := Some id |}, w2).

Inductive event :=
| Render (func : Func) (delay : Z)
| Call (h : handle Func) (args : Args)
| Wait (d : Z)
| Unmount.

Definition mount (func : Func) (delay : Z) : inst :=
  {| cells := snd (useUnsafeDebounce func delay {| timeoutRef := None |});
     mounted := true;
     world := boot |}.

(** The hook registers no effect, so the unmount runs no code of it. *)
Definition step (s : inst) (e : event) : inst :=
  match e with
  | Render f d =>
      if mounted s
      then {| cells := snd (useUnsafeDebounce f d (cells s));
              mounted := true; world := world s |}
      else s
  | Call h a =>
      let '(c, w) := debounced h a (cells s) (world s) in
      {| cells := c; mounted := mounted s; world := w |}
  | Wait d =>
      {| cells := cells s; mounted := mounted s;
         world := elapse d (world s) |}
  | Unmount =>
      {| cells := cells s; mounted := false; world := world s |}
  end.

Definition run (s : inst) (tr : list event) : inst := fold_left step tr s.

(** The trace of a burst of calls of one handle. *)
Definition burst (h : handle Func) (a : Args) (rest : list (Z * Args))
  : list event :=
  Call h a :: flat_map (fun p => [Wait (fst p); Call h (snd p)]) rest.

End Unsafe.

Arguments timeoutRef : clear implicits.
Arguments cells {Func Args}.
Arguments mounted {Func Args}.
Arguments world {Func Args}.
Arguments useUnsafeDebounce {Func}.
Arguments debounced {Func Args}.
Arguments Render {Func Args}.
Arguments Call {Func Args}.
Arguments Wait {Func Args}.
Arguments Unmount {Func Args}.
Arguments mount {Func Args}.
Arguments step {Func Args}.
Arguments run {Func Args}.
Arguments burst {Func Args}.

End Unsafe.

(** ** [useDebounce] *)

Module Safe.
Section Safe.
Variables Func Args : Type.

(** [timeoutRef], [argsRef] and [funcRef] all start as [undefined]. *)
Record refs := {
  timeoutRef : option nat;
  argsRef : option Args;
  funcRef : option Func
}.

Record inst := {
  cells : refs;
  mounted : bool;
  world : host Func Args
}.

Definition fresh : refs :=
  {| timeoutRef := None; argsRef := None; funcRef := None |}.

(** One render: [funcRef.current = func], and the handle is returned. *)
Definition useDebounce (func : Func) (delay : Z) (c : refs)
  : handle Func * refs :=
  (Handle func delay,
   {| timeoutRef := timeoutRef c; argsRef := argsRef c;
      funcRef := Some func |}).

(** The cleanup of the effect:
    [argsRef.current !== undefined && funcRef.current?.(...argsRef.current)] *)
Definition cleanup (c : refs) (w : host Func Args) : host Func Args :=
  match argsRef c with
  | Some a =>
      match funcRef c with
      | Some f => invoke f a ByCleanup w
      | None => w
      end
  | None => w
  end.

(** The body of the handle. *)
Definition debounced (h : handle Func) (args : Args) (c : refs)
  (w : host Func Args) : refs * host Func Args :=
  let c1 := {| timeoutRef := timeoutRef c; argsRef := Some args;
               funcRef := funcRef c |} in
  let w1 := clearTimeout (timeoutRef c1) w in
  let '(id, w2) := setTimeout (h_func h) args (h_delay h) w1 in
  ({| timeoutRef := Some id; argsRef := argsRef c1; funcRef := funcRef c1 |},
   w2).

Inductive event :=
| Render (func : Func) (delay : Z)
| Call (h : handle Func) (args : Args)
| Wait (d : Z)
| Unmount.

Definition mount (func : Func) (delay : Z) : inst :=
  {| cells := snd (useDebounce func delay fresh);
     mounted := true;
     world := boot |}.

(** The effect has no dependencies: its cleanup runs once, at unmount. *)
Definition step (s : inst) (e : event) : inst :=
  match e with
  | Render f d =>
      if mounted s
      then {| cells := snd (useDebounce f d (cells s));
              mounted := true; world := world s |}
      else s
  | Call h a =>
      let '(c, w) := debounced h a (cells s) (world s) in
      {| cells := c; mounted := mounted s; world := w |}
  | Wait d =>
      {| cells := cells s; mounted := mounted s;
         world := elapse d (world s) |}
  | Unmount =>
      if mounted s
      then {| cells := cells s; mounted := false;
              world := cleanup (cells s) (world s) |}
      else s
  end.

Definition run (s : inst) (tr : list event) : inst := fold_left step tr s.

(** The trace of a burst of calls of one handle. *)
Definition burst (h : handle Func) (a : Args) (rest : list (Z * Args))
  : list event :=
  Call h a :: flat_map (fun p => [Wait (fst p); Call h (snd p)]) rest.

(** *** Reading a trace *)

Definition is_unmount (e : event) : bool :=
  match e with Unmount => true | _ => false end.

Definition is_call (e : event) : bool :=
  match e with Call _ _ => true | _ => false end.

(** No unmount in the trace. *)
Definition alive (tr : list event) : bool :=
  forallb (fun e => negb (is_unmount e)) tr.

(** Neither a call of the handle nor an unmount. *)
Definition quiet (tr : list event) : bool :=
  forallb (fun e => negb (is_unmount e) && negb (is_call e)) tr.

Definition has_call (tr : list event) : bool := existsb is_call tr.

(** The handle and the arguments of the last call, after [acc]. *)
Fixpoint last_call_from (acc : option (handle Func * Args))
  (tr : list event) : option (handle Func * Args) :=
  match tr with
  | [] => acc
  | Call h a :: tr' => last_call_from (Some (h, a)) tr'
  | _ :: tr' => last_call_from acc tr'
  end.

Definition last_call (tr : list event) : option (handle Func * Args) :=
  last_call_from None tr.

(** The function of the last render that the instance has seen: renders
    stop at the unmount. *)
Fixpoint latest_func (f : Func) (tr : list event) : Func :=
  match tr with
  | [] => f
  | Render g _ :: tr' => latest_func g tr'
  | Unmount :: _ => f
  | _ :: tr' => latest_func f tr'
  end.

(** The time that passes during a trace. *)
Fixpoint elapsed (tr : list event) : Z :=
  match tr with
  | [] => 0
  | Wait d :: tr' => Z.max 0 d + elapsed tr'
  | _ :: tr' => elapsed tr'
  end.

(** The calls that an event adds to the log. *)
Definition added (s : inst) (e : event) : list (invocation Func Args) :=
  skipn (List.length (log (world s))) (log (world (step s e))).

End Safe.

Arguments timeoutRef {Func Args}.
Arguments argsRef {Func Args}.
Arguments funcRef {Func Args}.
Arguments cells {Func Args}.
Arguments mounted {Func Args}.
Arguments world {Func Args}.
Arguments fresh {Func Args}.
Arguments useDebounce {Func Args}.
Arguments cleanup {Func Args}.
Arguments debounced {Func Args}.
Arguments Render {Func Args}.
Arguments Call {Func Args}.
Arguments Wait {Func Args}.
Arguments Unmount {Func Args}.
Arguments mount {Func Args}.
Arguments step {Func Args}.
Arguments run {Func Args}.
Arguments burst {Func Args}.
Arguments is_unmount {Func Args}.
Arguments is_call {Func Args}.
Arguments alive {Func Args}.
Arguments quiet {Func Args}.
Arguments has_call {Func Args}.
Arguments last_call_from {Func Args}.
Arguments last_call {Func Args}.
Arguments latest_func {Func Args}.
Arguments elapsed {Func Args}.
Arguments added {Func Args}.

End Safe.

(** ** [useDebouncedState] *)

Module DebouncedState.
Section DebouncedState.
(** [V] is the type [S] of the state; [!==] on it is taken decidable. *)
Variables V Func : Type.
Variable V_eq_dec : forall x y : V, {x = y} + {x <> y}.

Record props := Props {
  p_state : V;
  p_setState : Func;
  p_delay : Z
}.

(** The cells of the hook: the state cell, [internalStateRef], and the
    cells of the inner [useDebounce(setState, delay)].  [last] holds the
    arguments of the latest render: React compares [state] with it to
    decide whether the effect runs, and renders again with them after a
    state update. *)
Record inst := {
  internalState : V;
  internalStateRef : V;
  last : props;
  deb : Safe.refs Func V;
  mounted : bool;
  world : host Func V
}.

(** [setInternalState(value)] *)
Definition setInternalState (value : V) (s : inst) : inst :=
  {| internalState := value; internalStateRef := internalStateRef s;
     last := last s; deb := deb s; mounted := mounted s;
     world := world s |}.

(** One render: [internalStateRef.current = internalState], the inner
    hook runs, and [[internalState, handleSetState]] is returned.  The
    setter is the closure over [debouncedSetState], given here by that
    handle. *)
Definition useDebouncedState (p : props) (s : inst)
  : (V * handle Func) * inst :=
  let '(debouncedSetState, d) :=
    Safe.useDebounce (p_setState p) (p_delay p) (deb s) in
  ((internalState s, debouncedSetState),
   {| internalState := internalState s;
      internalStateRef := internalState s;
      last := p; deb := d; mounted := mounted s; world := world s |}).

(** The effect on [[state]]:
    [if (state !== internalStateRef.current) setInternalState(state)] *)
Definition sync (state : V) (s : inst) : inst :=
  if V_eq_dec state (internalStateRef s) then s
  else setInternalState state s.

(** The body of [handleSetState], without the render that follows. *)
Definition handleSetState (h : handle Func) (value : V) (s : inst) : inst :=
  let s1 := if mounted s then setInternalState value s else s in
  let '(d, w) := Safe.debounced h value (deb s1) (world s1) in
  {| internalState := internalState s1;
     internalStateRef := internalStateRef s1;
     last := last s1; deb := d; mounted := mounted s1; world := w |}.

(** React renders again, with the same arguments, after an update of
    the state cell; it skips the render when the cell already holds the
    value, and then this render writes what the cells hold. *)
Definition rerender (s : inst) : inst :=
  if mounted s then snd (useDebouncedState (last s) s) else s.

Inductive event :=
| Render (p : props)
| SetValue (h : handle Func) (value : V)
| Wait (d : Z)
| Unmount.

(** The first render: [useState(state)] and [useRef(internalState)] are
    initialised, then the effects of the mount run. *)
Definition mount (p : props) : inst :=
  let s0 := {| internalState := p_state p; internalStateRef := p_state p;
               last := p; deb := Safe.fresh; mounted := true;
               world := boot |} in
  rerender (sync (p_state p) (snd (useDebouncedState p s0))).

(** A render of a mounted instance runs the effect when [state] is not
    the one of the render before; a call of the setter is followed by a
    render; the unmount runs the cleanup of the inner hook. *)
Definition step (s : inst) (e : event) : inst :=
  match e with
  | Render p =>
      if mounted s
      then
        let changed := if V_eq_dec (p_state p) (p_state (last s))
                       then false else true in
        let s1 := snd (useDebouncedState p s) in
        if changed then rerender (sync (p_state p) s1) else s1
      else s
  | SetValue h v => rerender (handleSetState h v s)
  | Wait d =>
      {| internalState := internalState s;
         internalStateRef := internalStateRef s;
         last := last s; deb := deb s; mounted := mounted s;
         world := elapse d (world s) |}
  | Unmount =>
      if mounted s
      then {| internalState := internalState s;
              internalStateRef := internalStateRef s;
              last := last s; deb := deb s; mounted := false;
              world := Safe.cleanup (deb s) (world s) |}
      else s
  end.

Definition run (s : inst) (tr : list event) : inst := fold_left step tr s.

(** The first component of what the next render returns. *)
Definition currentValue (p : props) (s : inst) : V :=
  fst (fst (useDebouncedState p s)).

Definition is_unmount (e : event) : bool :=
  match e with Unmount => true | _ => false end.

Definition alive (tr : list event) : bool :=
  forallb (fun e => negb (is_unmount e)) tr.

(** No unmount, and every call of the setter goes through a handle made
    with the delay [d]. *)
Definition steady (d : Z) (tr : list event) : bool :=
  forallb (fun e =>
             match e with
             | Unmount => false
             | SetValue h _ => h_delay h =? d
             | _ => true
             end) tr.

Fixpoint elapsed (tr : list event) : Z :=
  match tr with
  | [] => 0
  | Wait d :: tr' => Z.max 0 d + elapsed tr'
  | _ :: tr' => elapsed tr'
  end.

End DebouncedState.

Arguments Props {V Func}.
Arguments p_state {V Func}.
Arguments p_setState {V Func}.
Arguments p_delay {V Func}.
Arguments internalState {V Func}.
Arguments internalStateRef {V Func}.
Arguments last {V Func}.
Arguments deb {V Func}.
Arguments mounted {V Func}.
Arguments world {V Func}.
Arguments setInternalState {V Func}.
Arguments useDebouncedState {V Func}.
Arguments sync {V Func}.
Arguments handleSetState {V Func}.
Arguments rerender {V Func}.
Arguments Render {V Func}.
Arguments SetValue {V Func}.
Arguments Wait {V Func}.
Arguments Unmount {V Func}.
Arguments mount {V Func}.
Arguments step {V Func}.
Arguments run {V Func}.
Arguments currentValue {V Func}.
Arguments is_unmount {V Func}.
Arguments alive {V Func}.
Arguments steady {V Func}.
Arguments elapsed {V Func}.

End DebouncedState.

(** ** More ways to read a trace *)

Section Readings.
Variables Func Args : Type.

Definition unsafe_is_call (e : Unsafe.event Func Args) : bool :=
  match e with Unsafe.Call _ _ => true | _ => false end.

(** How often the handle is called in a trace. *)
Definition unsafe_calls (tr : list (Unsafe.event Func Args)) : nat :=
  List.length (filter unsafe_is_call tr).

Definition safe_calls (tr : list (Safe.event Func Args)) : nat :=
  List.length (filter (@Safe.is_call Func Args) tr).

(** Calls of one handle, each followed by a wait. *)
Definition unsafe_spaced (h : handle Func) (calls : list (Args * Z))
  : list (Unsafe.event Func Args) :=
  flat_map (fun c => [Unsafe.Call h (fst c); Unsafe.Wait (snd c)]) calls.

Definition safe_spaced (h : handle Func) (calls : list (Args * Z))
  : list (Safe.event Func Args) :=
  flat_map (fun c => [Safe.Call h (fst c); Safe.Wait (snd c)]) calls.

(** One call by the timer for each of them, the delay after it was made;
    [t] is the time of the first. *)
Fixpoint spaced_log (h : handle Func) (t : Z) (calls : list (Args * Z))
  : list (invocation Func Args) :=
  match calls with
  | [] => []
  | c :: rest =>
      Invocation (t + h_delay h) (h_func h) (fst c) ByTimer
      :: spaced_log h (t + Z.max 0 (snd c)) rest
  end.

End Readings.

Arguments unsafe_is_call {Func Args}.
Arguments unsafe_calls {Func Args}.
Arguments safe_calls {Func Args}.
Arguments unsafe_spaced {Func Args}.
Arguments safe_spaced {Func Args}.
Arguments spaced_log {Func Args}.

Section StateReadings.
Variables V Func : Type.
Variable V_eq_dec : forall x y : V, {x = y} + {x <> y}.

(** What the inner [useDebounce(setState, delay)] sees of an event of
    [useDebouncedState]: a render is a render with [setState] and
    [delay], a call of the setter is a call of [debouncedSetState]. *)
Definition ds_proj (e : DebouncedState.event V Func) : Safe.event Func V :=
  match e with
  | DebouncedState.Render p =>
      Safe.Render (DebouncedState.p_setState p) (DebouncedState.p_delay p)
  | DebouncedState.SetValue h v => Safe.Call h v
  | DebouncedState.Wait d => Safe.Wait d
  | DebouncedState.Unmount => Safe.Unmount
  end.

(** The cells of the inner hook, with the host. *)
Definition ds_inner (s : DebouncedState.inst V Func) : Safe.inst Func V :=
  {| Safe.cells := DebouncedState.deb s;
     Safe.mounted := DebouncedState.mounted s;
     Safe.world := DebouncedState.world s |}.

(** Renders and waiting only. *)
Definition ds_calm (tr : list (DebouncedState.event V Func)) : bool :=
  forallb (fun e =>
             match e with
             | DebouncedState.Render _ | DebouncedState.Wait _ => true
             | _ => false
             end) tr.

(** The latest of the local edits and the changes of the external value,
    up to the unmount; [cur] is the value so far and [ext] the external
    value of the latest render. *)
Fixpoint ds_shown (cur ext : V) (tr : list (DebouncedState.event V Func)) : V :=
  match tr with
  | [] => cur
  | DebouncedState.Render p :: tr' =>
      if V_eq_dec (DebouncedState.p_state p) ext
      then ds_shown cur ext tr'
      else ds_shown (DebouncedState.p_state p) (DebouncedState.p_state p) tr'
  | DebouncedState.SetValue _ v :: tr' => ds_shown v ext tr'
  | DebouncedState.Wait _ :: tr' => ds_shown cur ext tr'
  | DebouncedState.Unmount :: _ => cur
  end.

(** The cells as a render leaves them: [internalStateRef] holds the state
    and [funcRef] the [setState] of the latest render. *)
Definition ds_settled (s : DebouncedState.inst V Func) : Prop :=
  DebouncedState.internalStateRef s = DebouncedState.internalState s /\
  Safe.funcRef (DebouncedState.deb s) =
    Some (DebouncedState.p_setState (DebouncedState.last s)).

End StateReadings.

Arguments ds_settled {V Func}.
Arguments ds_proj {V Func}.
Arguments ds_inner {V Func}.
Arguments ds_calm {V Func}.
Arguments ds_shown {V Func}.

(** ** Concrete instances

    The hooks at concrete types, for the scenarios below: function
    references are names, argument tuples are lists of strings, the state
    of [useDebouncedState] is a string. *)

Section Instances.
Open Scope string_scope.

(** The handle returned by the first render of [useDebounce(save, 500)]. *)
Definition save500 : handle string :=
  fst (Safe.useDebounce (Args := list string) "save" 500 Safe.fresh).

Definition f1_500 : handle string :=
  fst (Safe.useDebounce (Args := list string) "f1" 500 Safe.fresh).

Definition propsX (x : string) : DebouncedState.props string string :=
  DebouncedState.Props x "setX" 500.

(** The handle returned by [useDebounce(save, 2^31)]: the delay is one
    more than the timer takes. *)
Definition saveBig : handle string :=
  fst (Safe.useDebounce (Args := list string) "save" 2147483648 Safe.fresh).

(** The handles inside the setters returned by [useDebouncedState(x, setX,
    2^31)] and by a render of [useDebouncedState(x, setX, 10)]. *)
Definition propsBig : DebouncedState.props string string :=
  DebouncedState.Props "x" "setX" 2147483648.

Definition setXBig : handle string :=
  snd (fst (DebouncedState.useDebouncedState propsBig
              (DebouncedState.mount string_dec propsBig))).

Definition props10 : DebouncedState.props string string :=
  DebouncedState.Props "x" "setX" 10.

Definition setX10 : handle string :=
  snd (fst (DebouncedState.useDebouncedState props10
              (DebouncedState.mount string_dec (propsX "x")))).

(** The handle inside the setter returned by the first render of
    [useDebouncedState(x, setX, 500)]. *)
Definition setX500 : handle string :=
  snd (fst (DebouncedState.useDebouncedState (propsX "x")
              (DebouncedState.mount string_dec (propsX "x")))).

End Instances.

(** * Facts *)

(** ** The timer service *)

Lemma timeout_nonneg d : 0 <= timeout d.
Proof. unfold timeout. apply Z.le_max_l. Qed.

(** A delay that fits the timer is taken as it is. *)
Lemma timeout_in_range d : 0 <= d <= max_delay -> timeout d = d.
Proof.
unfold timeout, to_int32, max_delay. intros H.
rewrite Z.mod_small by lia. lia.
Qed.

Section HostFacts.
Variables Func Args : Type.
Implicit Types (w : host Func Args) (tm : timer Func Args).

Lemma single_nil r w : timers w = [] -> single r w.
Proof. intros H; left; exact H. Qed.

Lemma single_length r w : single r w -> (List.length (timers w) <= 1)%nat.
Proof.
intros [H | [tm [H _]]]; rewrite H; simpl; lia.
Qed.

(** Clearing the id in the cell leaves no timer at all. *)
Lemma clearTimeout_single r w :
  single r w ->
  clearTimeout r w =
  {| now := now w; next_id := next_id w; timers := []; log := log w |}.
Proof.
intros [H | [tm [H Hr]]].
- destruct w as [n i t l]; simpl in H; subst t.
  destruct r; reflexivity.
- destruct w as [n i t l]; simpl in H; subst t r.
  simpl. now rewrite Nat.eqb_refl.
Qed.

(** [clearTimeout] then [setTimeout], as both handles do it. *)
Lemma rearm_single r f a d w :
  single r w ->
  setTimeout f a d (clearTimeout r w) =
  (next_id w,
   {| now := now w; next_id := S (next_id w);
      timers := [Timer (next_id w) (now w + timeout d) f a];
      log := log w |}).
Proof.
intros H. rewrite (clearTimeout_single r w H). reflexivity.
Qed.

Lemma elapse_nil d w :
  timers w = [] ->
  elapse d w =
  {| now := now w + Z.max 0 d; next_id := next_id w; timers := [];
     log := log w |}.
Proof.
intros H. unfold elapse. rewrite H. simpl. now rewrite app_nil_r.
Qed.

Lemma elapse_early d w tm :
  timers w = [tm] ->
  now w + Z.max 0 d < tm_due tm ->
  elapse d w =
  {| now := now w + Z.max 0 d; next_id := next_id w; timers := [tm];
     log := log w |}.
Proof.
intros H Hlt. unfold elapse, is_due. rewrite H. simpl.
destruct (Z.leb_spec (tm_due tm) (now w + Z.max 0 d)); [lia |].
simpl. now rewrite app_nil_r.
Qed.

Lemma elapse_due d w tm :
  timers w = [tm] ->
  tm_due tm <= now w + Z.max 0 d ->
  elapse d w =
  {| now := now w + Z.max 0 d; next_id := next_id w; timers := [];
     log := log w ++ [fire (now w) tm] |}.
Proof.
intros H Hle. unfold elapse, is_due. rewrite H. simpl.
destruct (Z.leb_spec (tm_due tm) (now w + Z.max 0 d)); [| lia].
reflexivity.
Qed.

Lemma single_elapse r d w : single r w -> single r (elapse d w).
Proof.
intros [H | [tm [H Hr]]].
- left. rewrite (elapse_nil d w H). reflexivity.
- destruct (Z.le_gt_cases (tm_due tm) (now w + Z.max 0 d)) as [Hle | Hgt].
  + left. rewrite (elapse_due d w tm H Hle). reflexivity.
  + right. exists tm. rewrite (elapse_early d w tm H Hgt). now split.
Qed.

(** No timer comes due: time passes and nothing else changes. *)
Lemma elapse_idle d w :
  (forall tm, In tm (timers w) -> now w + Z.max 0 d < tm_due tm) ->
  elapse d w =
  {| now := now w + Z.max 0 d; next_id := next_id w; timers := timers w;
     log := log w |}.
Proof.
intros H. unfold elapse.
assert (E : forall l : list (timer Func Args),
          (forall tm, In tm l -> now w + Z.max 0 d < tm_due tm) ->
          filter (is_due (now w + Z.max 0 d)) l = [] /\
          filter (fun tm => negb (is_due (now w + Z.max 0 d) tm)) l = l).
{ induction l as [| x l IH]; intros Hl; [now split |].
  destruct IH as [I1 I2]; [intros tm Hin; apply Hl; now right |].
  assert (Hx : is_due (now w + Z.max 0 d) x = false).
  { unfold is_due. apply Z.leb_gt. apply Hl. now left. }
  cbn [filter]. rewrite Hx. cbn [negb]. rewrite I1, I2. now split. }
destruct (E (timers w) H) as [E1 E2].
rewrite E1, E2. simpl. now rewrite app_nil_r.
Qed.

End HostFacts.

(** ** [useUnsafeDebounce] *)

Section UnsafeFacts.
Variables Func Args : Type.
Implicit Types (s : Unsafe.inst Func Args) (e : Unsafe.event Func Args)
  (h : handle Func) (a : Args).

Lemma unsafe_run_snoc s tr e :
  Unsafe.run s (tr ++ [e]) = Unsafe.step (Unsafe.run s tr) e.
Proof. unfold Unsafe.run. now rewrite fold_left_app. Qed.

Lemma unsafe_run_cons s e tr :
  Unsafe.run s (e :: tr) = Unsafe.run (Unsafe.step s e) tr.
Proof. reflexivity. Qed.

Lemma unsafe_wait_world s d :
  Unsafe.world (Unsafe.step s (Unsafe.Wait d)) = elapse d (Unsafe.world s).
Proof. reflexivity. Qed.

(** What a call of the handle leaves behind. *)
Lemma unsafe_call s h a :
  single (Unsafe.timeoutRef (Unsafe.cells s)) (Unsafe.world s) ->
  Unsafe.step s (Unsafe.Call h a) =
  {| Unsafe.cells := {| Unsafe.timeoutRef := Some (next_id (Unsafe.world s)) |};
     Unsafe.mounted := Unsafe.mounted s;
     Unsafe.world :=
       {| now := now (Unsafe.world s);
          next_id := S (next_id (Unsafe.world s));
          timers := [Timer (next_id (Unsafe.world s))
                       (now (Unsafe.world s) + timeout (h_delay h))
                       (h_func h) a];
          log := log (Unsafe.world s) |} |}.
Proof.
intros H. unfold Unsafe.step, Unsafe.debounced.
rewrite (rearm_single _ _ _ _ _ _ _ H). reflexivity.
Qed.

Lemma unsafe_step_single s e :
  single (Unsafe.timeoutRef (Unsafe.cells s)) (Unsafe.world s) ->
  single (Unsafe.timeoutRef (Unsafe.cells (Unsafe.step s e)))
         (Unsafe.world (Unsafe.step s e)).
Proof.
intros H. destruct e as [f d | h a | d |].
- simpl. destruct (Unsafe.mounted s); exact H.
- rewrite (unsafe_call s h a H). right. eexists. split; reflexivity.
- simpl. now apply single_elapse.
- exact H.
Qed.

Lemma unsafe_run_single tr : forall s,
  single (Unsafe.timeoutRef (Unsafe.cells s)) (Unsafe.world s) ->
  single (Unsafe.timeoutRef (Unsafe.cells (Unsafe.run s tr)))
         (Unsafe.world (Unsafe.run s tr)).
Proof.
induction tr as [| e tr IH]; intros s H; [exact H |].
simpl. apply IH. now apply unsafe_step_single.
Qed.

Lemma unsafe_mount_single (f : Func) d :
  single (Unsafe.timeoutRef (Unsafe.cells (Unsafe.mount (Args := Args) f d)))
         (Unsafe.world (Unsafe.mount (Args := Args) f d)).
Proof. now left. Qed.

(** The later calls of a burst: each one finds the timer of the call
    before it still pending, and replaces it. *)
Lemma unsafe_burst_tail h (rest : list (Z * Args)) : forall s id a,
  Unsafe.timeoutRef (Unsafe.cells s) = Some id ->
  timers (Unsafe.world s) =
    [Timer id (now (Unsafe.world s) + timeout (h_delay h)) (h_func h) a] ->
  Forall (fun p => 0 <= fst p < timeout (h_delay h)) rest ->
  exists id' w',
    Unsafe.world
      (Unsafe.run s
         (flat_map (fun p => [Unsafe.Wait (fst p); Unsafe.Call h (snd p)])
                   rest)) = w' /\
    Unsafe.timeoutRef
      (Unsafe.cells
         (Unsafe.run s
            (flat_map (fun p => [Unsafe.Wait (fst p); Unsafe.Call h (snd p)])
                      rest))) = Some id' /\
    timers w' =
      [Timer id' (now w' + timeout (h_delay h)) (h_func h)
             (last_args a rest)] /\
    log w' = log (Unsafe.world s) /\
    now w' = now (Unsafe.world s) + span rest.
Proof.
induction rest as [| [g b] rest IH]; intros s id a Hr Ht Hgaps.
- exists id, (Unsafe.world s). simpl. repeat split; try assumption. lia.
- inversion Hgaps as [| ? ? Hg Hrest]; subst. simpl in Hg.
  cbn [flat_map app fst snd]. rewrite !unsafe_run_cons.
  set (s1 := Unsafe.step s (Unsafe.Wait g)).
  assert (Hw1 : Unsafe.world s1 =
                {| now := now (Unsafe.world s) + Z.max 0 g;
                   next_id := next_id (Unsafe.world s);
                   timers := timers (Unsafe.world s);
                   log := log (Unsafe.world s) |}).
  { unfold s1; simpl. rewrite Ht. apply elapse_early; [exact Ht |]. simpl. lia. }
  assert (Hs1 : single (Unsafe.timeoutRef (Unsafe.cells s1)) (Unsafe.world s1)).
  { right. eexists. rewrite Hw1. simpl. split; [exact Ht |]. exact Hr. }
  pose proof (unsafe_call s1 h b Hs1) as Hc.
  destruct (IH (Unsafe.step s1 (Unsafe.Call h b))
               (next_id (Unsafe.world s1)) b) as [id' [w' [E0 [E1 [E2 [E3 E4]]]]]].
  + rewrite Hc. reflexivity.
  + rewrite Hc. reflexivity.
  + exact Hrest.
  + exists id', w'. repeat split.
    * exact E0.
    * exact E1.
    * exact E2.
    * rewrite E3, Hc. cbn [Unsafe.world log]. rewrite Hw1. reflexivity.
    * rewrite E4, Hc. cbn [Unsafe.world now]. rewrite Hw1. simpl. lia.
Qed.

Lemma unsafe_burst s h a rest w :
  timers (Unsafe.world s) = [] ->
  Forall (fun p => 0 <= fst p < timeout (h_delay h)) rest ->
  timeout (h_delay h) <= w ->
  log (Unsafe.world (Unsafe.run s (Unsafe.burst h a rest ++ [Unsafe.Wait w]))) =
  log (Unsafe.world s) ++
  [Invocation (now (Unsafe.world s) + span rest + timeout (h_delay h))
              (h_func h) (last_args a rest) ByTimer].
Proof.
intros Ht Hgaps Hw. unfold Unsafe.burst.
pose proof (timeout_nonneg (h_delay h)) as Hnn.
rewrite <- app_comm_cons, unsafe_run_cons, unsafe_run_snoc.
pose proof (unsafe_call s h a (single_nil _ _ _ _ Ht)) as Hc.
destruct (unsafe_burst_tail h rest (Unsafe.step s (Unsafe.Call h a))
            (next_id (Unsafe.world s)) a) as [id' [w' [E0 [E1 [E2 [E3 E4]]]]]].
- rewrite Hc. reflexivity.
- rewrite Hc. reflexivity.
- exact Hgaps.
- rewrite unsafe_wait_world, E0.
  rewrite (elapse_due _ _ w _ _ E2) by (simpl; lia).
  simpl. rewrite E3, E4, Hc. simpl. unfold fire. simpl.
  do 3 f_equal. lia.
Qed.

End UnsafeFacts.

(** ** [useDebounce] *)

Section SafeFacts.
Variables Func Args : Type.
Implicit Types (s : Safe.inst Func Args) (e : Safe.event Func Args)
  (tr : list (Safe.event Func Args)) (h : handle Func) (a : Args).

Lemma safe_run_cons s e tr :
  Safe.run s (e :: tr) = Safe.run (Safe.step s e) tr.
Proof. reflexivity. Qed.

Lemma safe_run_snoc s tr e :
  Safe.run s (tr ++ [e]) = Safe.step (Safe.run s tr) e.
Proof. unfold Safe.run. now rewrite fold_left_app. Qed.

Lemma safe_wait_world s d :
  Safe.world (Safe.step s (Safe.Wait d)) = elapse d (Safe.world s).
Proof. reflexivity. Qed.

(** What a call of the handle leaves behind. *)
Lemma safe_call s h a :
  single (Safe.timeoutRef (Safe.cells s)) (Safe.world s) ->
  Safe.step s (Safe.Call h a) =
  {| Safe.cells :=
       {| Safe.timeoutRef := Some (next_id (Safe.world s));
          Safe.argsRef := Some a;
          Safe.funcRef := Safe.funcRef (Safe.cells s) |};
     Safe.mounted := Safe.mounted s;
     Safe.world :=
       {| now := now (Safe.world s);
          next_id := S (next_id (Safe.world s));
          timers := [Timer (next_id (Safe.world s))
                       (now (Safe.world s) + timeout (h_delay h))
                       (h_func h) a];
          log := log (Safe.world s) |} |}.
Proof.
intros H. unfold Safe.step, Safe.debounced. cbn [Safe.timeoutRef].
rewrite (rearm_single _ _ _ _ _ _ _ H). reflexivity.
Qed.

Lemma safe_cleanup_single r c (w : host Func Args) :
  single r w -> single r (Safe.cleanup c w).
Proof.
intros H. unfold Safe.cleanup.
destruct (Safe.argsRef c); [destruct (Safe.funcRef c) |]; exact H.
Qed.

Lemma safe_step_single s e :
  single (Safe.timeoutRef (Safe.cells s)) (Safe.world s) ->
  single (Safe.timeoutRef (Safe.cells (Safe.step s e)))
         (Safe.world (Safe.step s e)).
Proof.
intros H. destruct e as [f d | h a | d |].
- simpl. destruct (Safe.mounted s); exact H.
- rewrite (safe_call s h a H). right. eexists. split; reflexivity.
- simpl. now apply single_elapse.
- simpl. destruct (Safe.mounted s); [| exact H].
  simpl. now apply safe_cleanup_single.
Qed.

Lemma safe_run_single tr : forall s,
  single (Safe.timeoutRef (Safe.cells s)) (Safe.world s) ->
  single (Safe.timeoutRef (Safe.cells (Safe.run s tr)))
         (Safe.world (Safe.run s tr)).
Proof.
induction tr as [| e tr IH]; intros s H; [exact H |].
rewrite safe_run_cons. apply IH. now apply safe_step_single.
Qed.

Lemma safe_mount_single (f : Func) d :
  single (Safe.timeoutRef (Safe.cells (Safe.mount (Args := Args) f d)))
         (Safe.world (Safe.mount (Args := Args) f d)).
Proof. now left. Qed.

(** The later calls of a burst, as for the unsafe hook. *)
Lemma safe_burst_tail h (rest : list (Z * Args)) : forall s id a,
  Safe.timeoutRef (Safe.cells s) = Some id ->
  timers (Safe.world s) =
    [Timer id (now (Safe.world s) + timeout (h_delay h)) (h_func h) a] ->
  Forall (fun p => 0 <= fst p < timeout (h_delay h)) rest ->
  exists id' w',
    Safe.world
      (Safe.run s
         (flat_map (fun p => [Safe.Wait (fst p); Safe.Call h (snd p)])
                   rest)) = w' /\
    Safe.timeoutRef
      (Safe.cells
         (Safe.run s
            (flat_map (fun p => [Safe.Wait (fst p); Safe.Call h (snd p)])
                      rest))) = Some id' /\
    timers w' =
      [Timer id' (now w' + timeout (h_delay h)) (h_func h)
             (last_args a rest)] /\
    log w' = log (Safe.world s) /\
    now w' = now (Safe.world s) + span rest.
Proof.
induction rest as [| [g b] rest IH]; intros s id a Hr Ht Hgaps.
- exists id, (Safe.world s). simpl. repeat split; try assumption. lia.
- inversion Hgaps as [| ? ? Hg Hrest]; subst. simpl in Hg.
  cbn [flat_map app fst snd]. rewrite !safe_run_cons.
  set (s1 := Safe.step s (Safe.Wait g)).
  assert (Hw1 : Safe.world s1 =
                {| now := now (Safe.world s) + Z.max 0 g;
                   next_id := next_id (Safe.world s);
                   timers := timers (Safe.world s);
                   log := log (Safe.world s) |}).
  { unfold s1; simpl. rewrite Ht. apply elapse_early; [exact Ht |]. simpl. lia. }
  assert (Hs1 : single (Safe.timeoutRef (Safe.cells s1)) (Safe.world s1)).
  { right. eexists. rewrite Hw1. simpl. split; [exact Ht |]. exact Hr. }
  pose proof (safe_call s1 h b Hs1) as Hc.
  destruct (IH (Safe.step s1 (Safe.Call h b))
               (next_id (Safe.world s1)) b) as [id' [w' [E0 [E1 [E2 [E3 E4]]]]]].
  + rewrite Hc. reflexivity.
  + rewrite Hc. reflexivity.
  + exact Hrest.
  + exists id', w'. repeat split.
    * exact E0.
    * exact E1.
    * exact E2.
    * rewrite E3, Hc. cbn [Safe.world log]. rewrite Hw1. reflexivity.
    * rewrite E4, Hc. cbn [Safe.world now]. rewrite Hw1. simpl. lia.
Qed.

Lemma safe_burst s h a rest w :
  timers (Safe.world s) = [] ->
  Forall (fun p => 0 <= fst p < timeout (h_delay h)) rest ->
  timeout (h_delay h) <= w ->
  log (Safe.world (Safe.run s (Safe.burst h a rest ++ [Safe.Wait w]))) =
  log (Safe.world s) ++
  [Invocation (now (Safe.world s) + span rest + timeout (h_delay h))
              (h_func h) (last_args a rest) ByTimer].
Proof.
intros Ht Hgaps Hw. unfold Safe.burst.
pose proof (timeout_nonneg (h_delay h)) as Hnn.
rewrite <- app_comm_cons, safe_run_cons, safe_run_snoc.
pose proof (safe_call s h a (single_nil _ _ _ _ Ht)) as Hc.
destruct (safe_burst_tail h rest (Safe.step s (Safe.Call h a))
            (next_id (Safe.world s)) a) as [id' [w' [E0 [E1 [E2 [E3 E4]]]]]].
- rewrite Hc. reflexivity.
- rewrite Hc. reflexivity.
- exact Hgaps.
- rewrite safe_wait_world, E0.
  rewrite (elapse_due _ _ w _ _ E2) by (simpl; lia).
  simpl. rewrite E3, E4, Hc. simpl. unfold fire. simpl.
  do 3 f_equal. lia.
Qed.

(** *** Traces *)

Lemma alive_snoc tr e :
  Safe.alive (tr ++ [e]) = Safe.alive tr && negb (Safe.is_unmount e).
Proof.
unfold Safe.alive. rewrite forallb_app. simpl. now rewrite andb_true_r.
Qed.

Lemma last_call_from_snoc tr e : forall acc,
  Safe.last_call_from acc (tr ++ [e]) =
  match e with
  | Safe.Call h a => Some (h, a)
  | _ => Safe.last_call_from acc tr
  end.
Proof.
induction tr as [| x tr IH]; intros acc.
- destruct e; reflexivity.
- destruct x; simpl; apply IH.
Qed.

Lemma last_call_snoc tr e :
  Safe.last_call (tr ++ [e]) =
  match e with
  | Safe.Call h a => Some (h, a)
  | _ => Safe.last_call tr
  end.
Proof. apply last_call_from_snoc. Qed.

Lemma latest_func_snoc tr e : forall f,
  Safe.latest_func f (tr ++ [e]) =
  if Safe.alive tr
  then match e with
       | Safe.Render g _ => g
       | _ => Safe.latest_func f tr
       end
  else Safe.latest_func f tr.
Proof.
induction tr as [| x tr IH]; intros f.
- destruct e; reflexivity.
- destruct x; simpl; try apply IH. reflexivity.
Qed.

Lemma has_call_last tr : forall acc,
  Safe.has_call tr = true ->
  exists h a, Safe.last_call_from acc tr = Some (h, a).
Proof.
induction tr as [| x tr IH] using rev_ind; intros acc H; [discriminate |].
rewrite last_call_from_snoc.
unfold Safe.has_call in H. rewrite existsb_app in H. simpl in H.
rewrite orb_false_r in H.
destruct x as [g d | h a | d |]; simpl in H; try rewrite orb_false_r in H;
  try (now apply IH).
now exists h, a.
Qed.

Lemma no_call_last tr :
  Safe.has_call tr = false -> Safe.last_call tr = None.
Proof.
unfold Safe.last_call. generalize (@None (handle Func * Args)).
induction tr as [| x tr IH]; intros acc H; [reflexivity |].
unfold Safe.has_call in H. simpl in H. apply orb_false_elim in H.
destruct H as [H1 H2]. destruct x; simpl in *; try discriminate;
  now apply IH.
Qed.

(** *** What the cells hold after a trace *)

Lemma added_app s e l :
  log (Safe.world (Safe.step s e)) = log (Safe.world s) ++ l ->
  Safe.added s e = l.
Proof.
intros H. unfold Safe.added. rewrite H.
rewrite skipn_app, skipn_all, Nat.sub_diag. reflexivity.
Qed.

Lemma added_same s e :
  log (Safe.world (Safe.step s e)) = log (Safe.world s) ->
  Safe.added s e = [].
Proof. intros H. apply added_app. now rewrite app_nil_r. Qed.

(** After any trace: the instance is mounted as long as no unmount came;
    [funcRef] holds the function of the latest render and [argsRef] the
    arguments of the latest call; the one timer that may be pending is
    the one armed by the latest call; and without a call the log is
    empty. *)
Lemma safe_tracks (f : Func) d tr :
  let s := Safe.run (Safe.mount f d) tr in
  Safe.mounted s = Safe.alive tr /\
  Safe.funcRef (Safe.cells s) = Some (Safe.latest_func f tr) /\
  Safe.argsRef (Safe.cells s) = option_map snd (Safe.last_call tr) /\
  (timers (Safe.world s) = [] \/
   exists tm hh,
     timers (Safe.world s) = [tm] /\
     Safe.timeoutRef (Safe.cells s) = Some (tm_id tm) /\
     Safe.last_call tr = Some (hh, tm_args tm) /\
     tm_func tm = h_func hh) /\
  (Safe.last_call tr = None -> log (Safe.world s) = []).
Proof.
induction tr as [| e tr IH] using rev_ind.
- simpl. repeat split; auto.
- cbv zeta in *. rewrite safe_run_snoc, alive_snoc, last_call_snoc,
    latest_func_snoc.
  destruct IH as [Hm [Hf [Ha [Ht Hl]]]].
  set (s := Safe.run (Safe.mount f d) tr) in *.
  assert (Hs : single (Safe.timeoutRef (Safe.cells s)) (Safe.world s)).
  { destruct Ht as [Ht | [tm [hh [Ht [Hr _]]]]]; [now left | right].
    exists tm. now split. }
  destruct e as [g d' | h a | d' |].
  + simpl. rewrite <- Hm. destruct (Safe.mounted s) eqn:Em; simpl;
      repeat split; auto.
  + rewrite (safe_call s h a Hs). simpl. rewrite ?andb_true_r.
    repeat split; auto.
    * rewrite Hf. now destruct (Safe.alive tr).
    * right. eexists. exists h. simpl. repeat split; reflexivity.
    * discriminate.
  + cbn [Safe.step Safe.cells Safe.mounted Safe.world Safe.is_unmount negb].
    rewrite ?andb_true_r. repeat split; auto.
    * rewrite Hf. now destruct (Safe.alive tr).
    * destruct Ht as [Ht | [tm [hh [Ht [Hr [Hc Hfn]]]]]].
      -- left. rewrite (elapse_nil _ _ d' _ Ht). reflexivity.
      -- destruct (Z.le_gt_cases (tm_due tm)
                     (now (Safe.world s) + Z.max 0 d')) as [Hle | Hgt].
         ++ left. rewrite (elapse_due _ _ d' _ tm Ht Hle). reflexivity.
         ++ right. exists tm, hh.
            rewrite (elapse_early _ _ d' _ tm Ht Hgt). simpl. auto.
    * intros Hn. destruct Ht as [Ht | [tm [hh [Ht [Hr [Hc Hfn]]]]]].
      -- rewrite (elapse_nil _ _ d' _ Ht). simpl. auto.
      -- rewrite Hc in Hn. discriminate.
  + simpl. rewrite ?andb_false_r.
    assert (Hlf : (if Safe.alive tr
                   then Safe.latest_func f tr
                   else Safe.latest_func f tr) = Safe.latest_func f tr)
      by now destruct (Safe.alive tr).
    rewrite Hlf.
    destruct (Safe.mounted s) eqn:Em; simpl.
    * repeat split; auto.
      -- unfold Safe.cleanup.
         destruct (Safe.argsRef (Safe.cells s));
           [destruct (Safe.funcRef (Safe.cells s)) |]; exact Ht.
      -- intros Hn. unfold Safe.cleanup. rewrite Ha, Hn. simpl. auto.
    * repeat split; auto; congruence.
Qed.

Lemma safe_reach_single (f : Func) d tr :
  single (Safe.timeoutRef (Safe.cells (Safe.run (Safe.mount f d) tr)))
         (Safe.world (Safe.run (Safe.mount (Args := Args) f d) tr)).
Proof. apply safe_run_single, safe_mount_single. Qed.

Lemma latest_func_app tr1 tr2 : forall f,
  Safe.alive tr1 = true ->
  Safe.latest_func f (tr1 ++ tr2) =
  Safe.latest_func (Safe.latest_func f tr1) tr2.
Proof.
induction tr1 as [| x tr1 IH]; intros f H; [reflexivity |].
simpl in H. apply andb_prop in H. destruct H as [H1 H2].
destruct x; simpl in *; try discriminate; now apply IH.
Qed.

Lemma safe_elapsed_nonneg tr : 0 <= Safe.elapsed tr.
Proof.
induction tr as [| x l IH]; simpl; [lia |]. destruct x; simpl; lia.
Qed.

(** While neither a call nor the unmount comes and no timer comes due,
    only the clock and [funcRef] move. *)
Lemma quiet_run evs : forall s g,
  Safe.quiet evs = true ->
  (forall tm, In tm (timers (Safe.world s)) ->
              now (Safe.world s) + Safe.elapsed evs < tm_due tm) ->
  Safe.mounted s = true ->
  Safe.funcRef (Safe.cells s) = Some g ->
  log (Safe.world (Safe.run s evs)) = log (Safe.world s) /\
  timers (Safe.world (Safe.run s evs)) = timers (Safe.world s) /\
  now (Safe.world (Safe.run s evs)) = now (Safe.world s) + Safe.elapsed evs /\
  Safe.argsRef (Safe.cells (Safe.run s evs)) = Safe.argsRef (Safe.cells s) /\
  Safe.mounted (Safe.run s evs) = true /\
  Safe.funcRef (Safe.cells (Safe.run s evs)) = Some (Safe.latest_func g evs).
Proof.
induction evs as [| e evs IH]; intros s g Hq Hd Hm Hf.
- simpl. repeat split; auto. lia.
- simpl in Hq. apply andb_prop in Hq. destruct Hq as [He Hq].
  rewrite safe_run_cons.
  destruct e as [g' d' | h a | d' |]; try discriminate.
  + destruct (IH (Safe.step s (Safe.Render g' d')) g' Hq) as
      [E1 [E2 [E3 [E4 [E5 E6]]]]].
    * simpl. rewrite Hm. exact Hd.
    * simpl. now rewrite Hm.
    * simpl. now rewrite Hm.
    * rewrite E1, E2, E3, E4, E5, E6. simpl. rewrite Hm. simpl.
      repeat split; reflexivity.
  + assert (Hw : Safe.world (Safe.step s (Safe.Wait d')) =
                 {| now := now (Safe.world s) + Z.max 0 d';
                    next_id := next_id (Safe.world s);
                    timers := timers (Safe.world s);
                    log := log (Safe.world s) |}).
    { rewrite safe_wait_world. apply elapse_idle.
      intros tm Hin. specialize (Hd tm Hin). simpl in Hd.
      assert (0 <= Safe.elapsed evs).
      { clear. induction evs as [| x l IHl]; simpl; [lia |].
        destruct x; simpl; lia. }
      lia. }
    destruct (IH (Safe.step s (Safe.Wait d')) g Hq) as
      [E1 [E2 [E3 [E4 [E5 E6]]]]].
    * rewrite Hw. simpl. intros tm Hin. specialize (Hd tm Hin).
      simpl in Hd. lia.
    * exact Hm.
    * exact Hf.
    * rewrite E1, E2, E3, E4, E5, E6, Hw. simpl.
      repeat split; try reflexivity. lia.
Qed.

(** No event empties [argsRef]. *)
Lemma argsRef_stays tr : forall s,
  Safe.argsRef (Safe.cells s) <> None ->
  Safe.argsRef (Safe.cells (Safe.run s tr)) <> None.
Proof.
induction tr as [| e tr IH]; intros s H; [exact H |].
rewrite safe_run_cons. apply IH.
destruct e as [g d | h a | d |]; simpl.
- destruct (Safe.mounted s); exact H.
- unfold Safe.debounced, setTimeout. simpl. discriminate.
- exact H.
- destruct (Safe.mounted s); exact H.
Qed.

End SafeFacts.

(** ** Properties of the two debounce hooks *)

Section DebounceClaims.
Variables Func Args : Type.

(** C9. At most one timer is pending at any time, for either hook: after
    any trace from the mount the list of pending timers has at most one
    element, and a call of the handle leaves exactly the timer it has
    armed, whatever was pending before. *)
Theorem at_most_one_pending_timer :
  (forall (f : Func) d (tr : list (Unsafe.event Func Args)),
     (List.length (timers (Unsafe.world (Unsafe.run (Unsafe.mount f d) tr)))
      <= 1)%nat) /\
  (forall (f : Func) d (tr : list (Unsafe.event Func Args)) h a,
     let s := Unsafe.run (Unsafe.mount f d) tr in
     timers (Unsafe.world (Unsafe.step s (Unsafe.Call h a))) =
     [Timer (next_id (Unsafe.world s))
            (now (Unsafe.world s) + timeout (h_delay h)) (h_func h) a]) /\
  (forall (f : Func) d (tr : list (Safe.event Func Args)),
     (List.length (timers (Safe.world (Safe.run (Safe.mount f d) tr)))
      <= 1)%nat) /\
  (forall (f : Func) d (tr : list (Safe.event Func Args)) h a,
     let s := Safe.run (Safe.mount f d) tr in
     timers (Safe.world (Safe.step s (Safe.Call h a))) =
     [Timer (next_id (Safe.world s))
            (now (Safe.world s) + timeout (h_delay h)) (h_func h) a]).
Proof.
repeat split.
- intros f d tr. eapply single_length.
  apply unsafe_run_single, unsafe_mount_single.
- intros f d tr h a s. rewrite unsafe_call; [reflexivity |].
  apply unsafe_run_single, unsafe_mount_single.
- intros f d tr. eapply single_length. apply safe_reach_single.
- intros f d tr h a s. rewrite safe_call; [reflexivity |].
  apply safe_reach_single.
Qed.

(** C4, as the code has it.  For a delay that the timer takes as it is,
    from 0 to [max_delay]: a burst of calls of one handle, each less than
    the delay after the one before, started while no timer is pending and
    followed by a wait that reaches the last deadline, with no unmount:
    the log gains exactly one call, made by the timer, with the arguments
    of the last call of the burst, at the time of that call plus the
    delay.  This holds for [useUnsafeDebounce] and for [useDebounce]. *)
Theorem burst_fires_once_with_last_args
  (h : handle Func) (a : Args) (rest : list (Z * Args)) (w : Z)
  (su : Unsafe.inst Func Args) (ss : Safe.inst Func Args) :
  0 <= h_delay h <= max_delay ->
  Forall (fun p => 0 <= fst p < h_delay h) rest ->
  h_delay h <= w ->
  timers (Unsafe.world su) = [] ->
  timers (Safe.world ss) = [] ->
  log (Unsafe.world (Unsafe.run su (Unsafe.burst h a rest ++ [Unsafe.Wait w]))) =
    log (Unsafe.world su) ++
    [Invocation (now (Unsafe.world su) + span rest + h_delay h)
                (h_func h) (last_args a rest) ByTimer] /\
  log (Safe.world (Safe.run ss (Safe.burst h a rest ++ [Safe.Wait w]))) =
    log (Safe.world ss) ++
    [Invocation (now (Safe.world ss) + span rest + h_delay h)
                (h_func h) (last_args a rest) ByTimer].
Proof.
intros Hr Hgaps Hw Hu Hs.
pose proof (timeout_in_range (h_delay h) Hr) as E.
assert (Hgaps' : Forall (fun p => 0 <= fst p < timeout (h_delay h)) rest).
{ eapply Forall_impl; [| exact Hgaps]. intros p Hp. now rewrite E. }
split.
- rewrite (unsafe_burst _ _ su h a rest w Hu Hgaps'); [| now rewrite E].
  now rewrite E.
- rewrite (safe_burst _ _ ss h a rest w Hs Hgaps'); [| now rewrite E].
  now rewrite E.
Qed.

(** C1. [useUnsafeDebounce] registers no cleanup: the unmount leaves the
    pending timer in place, and the wrapped function is called when the
    delay, as the timer takes it, has passed, although the instance was
    destroyed before. *)
Theorem unsafe_unmount_keeps_timer
  (s : Unsafe.inst Func Args) (h : handle Func) (a : Args) (g w : Z) :
  timers (Unsafe.world s) = [] ->
  0 <= g < timeout (h_delay h) ->
  timeout (h_delay h) <= g + w ->
  Unsafe.world (Unsafe.step (Unsafe.run s [Unsafe.Call h a; Unsafe.Wait g])
                            Unsafe.Unmount) =
    Unsafe.world (Unsafe.run s [Unsafe.Call h a; Unsafe.Wait g]) /\
  log (Unsafe.world
         (Unsafe.run s [Unsafe.Call h a; Unsafe.Wait g; Unsafe.Unmount;
                        Unsafe.Wait w])) =
    log (Unsafe.world s) ++
    [Invocation (now (Unsafe.world s) + timeout (h_delay h)) (h_func h) a
                ByTimer].
Proof.
intros Ht Hg Hw. split; [reflexivity |].
rewrite !unsafe_run_cons.
pose proof (unsafe_call _ _ s h a (single_nil _ _ _ _ Ht)) as Hc.
set (s1 := Unsafe.step s (Unsafe.Call h a)) in *.
cbn [Unsafe.run fold_left].
change (Unsafe.world
          (Unsafe.step (Unsafe.step (Unsafe.step s1 (Unsafe.Wait g))
                                    Unsafe.Unmount) (Unsafe.Wait w)))
  with (elapse w (elapse g (Unsafe.world s1))).
rewrite Hc. cbn [Unsafe.world].
erewrite (elapse_early _ _ g); [| reflexivity | simpl; lia].
erewrite (elapse_due _ _ w); [| reflexivity | simpl; lia].
simpl. unfold fire. simpl. do 3 f_equal. lia.
Qed.

(** C8. If the handle of [useDebounce] is never called, the log is empty
    after the unmount: the cleanup finds [argsRef] undefined and calls
    nothing. *)
Theorem safe_no_call_no_invocation
  (f : Func) (d : Z) (tr : list (Safe.event Func Args)) :
  Safe.has_call tr = false ->
  log (Safe.world (Safe.run (Safe.mount f d) (tr ++ [Safe.Unmount]))) = [].
Proof.
intros H.
destruct (safe_tracks _ _ f d (tr ++ [Safe.Unmount])) as [_ [_ [_ [_ Hl]]]].
apply Hl. rewrite last_call_snoc. now apply no_call_last.
Qed.

(** C3, as the code has it.  For a delay up to [max_delay]: a call of the
    handle of [useDebounce], then less than the delay of renders and
    waiting, then the unmount: nothing is added to the log between the
    call and the unmount, and the unmount itself adds exactly one call,
    at that moment, with the arguments of that call and the function of
    the latest render. *)
Theorem safe_unmount_flushes_last_call
  (f : Func) (d : Z) (tr : list (Safe.event Func Args))
  (h : handle Func) (a : Args) (evs : list (Safe.event Func Args)) :
  Safe.alive tr = true ->
  Safe.quiet evs = true ->
  h_delay h <= max_delay ->
  Safe.elapsed evs < h_delay h ->
  let s := Safe.run (Safe.mount f d) tr in
  let s' := Safe.run s (Safe.Call h a :: evs) in
  log (Safe.world s') = log (Safe.world s) /\
  Safe.added s' Safe.Unmount =
    [Invocation (now (Safe.world s) + Safe.elapsed evs)
                (Safe.latest_func f (tr ++ evs)) a ByCleanup].
Proof.
intros Hal Hq Hmax Hel s s'.
pose proof (safe_elapsed_nonneg _ _ evs) as Hnn.
assert (E : timeout (h_delay h) = h_delay h)
  by (apply timeout_in_range; lia).
destruct (safe_tracks _ _ f d tr) as [Hm [Hf _]]. fold s in Hm, Hf.
pose proof (safe_call _ _ s h a (safe_reach_single _ _ f d tr)) as Hc.
fold s in Hc. rewrite E in Hc.
assert (Hrun : s' = Safe.run (Safe.step s (Safe.Call h a)) evs) by reflexivity.
destruct (quiet_run _ _ evs (Safe.step s (Safe.Call h a))
            (Safe.latest_func f tr) Hq) as [E1 [E2 [E3 [E4 [E5 E6]]]]].
- rewrite Hc. simpl. intros tm [<- | []]. simpl. lia.
- rewrite Hc. simpl. now rewrite Hm.
- rewrite Hc. simpl. exact Hf.
- rewrite <- Hrun in *. split.
  + rewrite E1, Hc. reflexivity.
  + apply added_app. simpl. rewrite E5. simpl. unfold Safe.cleanup.
    rewrite E4, E6, Hc. simpl. unfold invoke. simpl.
    rewrite E1, E3, Hc. simpl.
    now rewrite (latest_func_app _ _ tr evs f Hal).
Qed.

(** C10. A timer that fires leaves [argsRef] as it is, and once the handle
    has been called no later event empties it: after a call and a wait
    that reaches the deadline the log has the call made by the timer, no
    timer is pending, [argsRef] still holds the arguments, and after any
    further renders and waiting the unmount calls the wrapped function
    again with those arguments. *)
Theorem argsRef_survives_timer_fire
  (f : Func) (d : Z) (tr : list (Safe.event Func Args))
  (h : handle Func) (a : Args) (w : Z) (post : list (Safe.event Func Args)) :
  Safe.alive tr = true ->
  timeout (h_delay h) <= w ->
  Safe.quiet post = true ->
  let s := Safe.run (Safe.mount f d) tr in
  let s1 := Safe.run s [Safe.Call h a; Safe.Wait w] in
  (forall (s0 : Safe.inst Func Args) d0,
     Safe.argsRef (Safe.cells (Safe.step s0 (Safe.Wait d0))) =
     Safe.argsRef (Safe.cells s0)) /\
  (forall later,
     Safe.argsRef (Safe.cells (Safe.run s (Safe.Call h a :: later))) <> None) /\
  Safe.argsRef (Safe.cells s1) = Some a /\
  timers (Safe.world s1) = [] /\
  log (Safe.world s1) =
    log (Safe.world s) ++
    [Invocation (now (Safe.world s) + timeout (h_delay h)) (h_func h) a
                ByTimer] /\
  log (Safe.world (Safe.run s1 (post ++ [Safe.Unmount]))) =
    log (Safe.world s1) ++
    [Invocation (now (Safe.world s1) + Safe.elapsed post)
                (Safe.latest_func f (tr ++ post)) a ByCleanup].
Proof.
intros Hal Hw Hq s s1.
pose proof (timeout_nonneg (h_delay h)) as Hnn.
destruct (safe_tracks _ _ f d tr) as [Hm [Hf _]]. fold s in Hm, Hf.
pose proof (safe_call _ _ s h a (safe_reach_single _ _ f d tr)) as Hc.
fold s in Hc.
assert (H1 : s1 =
  {| Safe.cells :=
       {| Safe.timeoutRef := Some (next_id (Safe.world s));
          Safe.argsRef := Some a;
          Safe.funcRef := Some (Safe.latest_func f tr) |};
     Safe.mounted := true;
     Safe.world :=
       {| now := now (Safe.world s) + Z.max 0 w;
          next_id := S (next_id (Safe.world s));
          timers := [];
          log := log (Safe.world s) ++
                 [Invocation (now (Safe.world s) + timeout (h_delay h))
                             (h_func h) a ByTimer] |} |}).
{ unfold s1. rewrite !safe_run_cons. cbn [Safe.run fold_left].
  rewrite Hc. cbn [Safe.step Safe.cells Safe.mounted Safe.world].
  erewrite (elapse_due _ _ w); [| reflexivity | simpl; lia].
  rewrite Hm, Hal, Hf. unfold fire. simpl. do 5 f_equal. lia. }
assert (Ha1 : Safe.argsRef (Safe.cells s1) = Some a) by now rewrite H1.
split; [reflexivity |].
split; [intros later; rewrite safe_run_cons; apply argsRef_stays;
        rewrite Hc; discriminate |].
split; [exact Ha1 |].
split; [now rewrite H1 |].
split; [now rewrite H1 |].
rewrite safe_run_snoc.
destruct (quiet_run _ _ post s1 (Safe.latest_func f tr) Hq)
  as [E1 [E2 [E3 [E4 [E5 E6]]]]].
- rewrite H1. simpl. intros tm [].
- now rewrite H1.
- now rewrite H1.
- simpl. rewrite E5. simpl. unfold Safe.cleanup.
  rewrite E4, E6, Ha1. simpl. rewrite E1, E3.
  now rewrite (latest_func_app _ _ tr post f Hal).
Qed.

(** C5, as the code has it.  Every call that an event adds to the log
    carries the arguments of the most recent call of the handle.  The
    cleanup at unmount calls the function of the latest render; the
    timer calls the function held by the handle through which that most
    recent call was made. *)
Theorem invocation_func_and_args
  (f : Func) (d : Z) (tr : list (Safe.event Func Args))
  (e : Safe.event Func Args) (i : invocation Func Args) :
  In i (Safe.added (Safe.run (Safe.mount f d) tr) e) ->
  exists hh,
    Safe.last_call tr = Some (hh, inv_args i) /\
    match inv_by i with
    | ByCleanup => inv_func i = Safe.latest_func f tr
    | ByTimer => inv_func i = h_func hh
    end.
Proof.
destruct (safe_tracks _ _ f d tr) as [Hm [Hf [Ha [Ht _]]]].
pose proof (safe_reach_single _ _ f d tr) as Hs.
set (s := Safe.run (Safe.mount f d) tr) in *.
destruct e as [g d' | h a | d' |].
- rewrite added_same; [intros [] |].
  simpl. now destruct (Safe.mounted s).
- rewrite added_same; [intros [] |].
  now rewrite (safe_call _ _ s h a Hs).
- destruct Ht as [Ht | [tm [hh [Ht [Hr [Hc Hfn]]]]]].
  + rewrite added_same; [intros [] |].
    rewrite safe_wait_world, (elapse_nil _ _ d' _ Ht). reflexivity.
  + destruct (Z.le_gt_cases (tm_due tm) (now (Safe.world s) + Z.max 0 d'))
      as [Hle | Hgt].
    * rewrite (added_app _ _ s _ [fire (now (Safe.world s)) tm]).
      -- intros [<- | []]. exists hh. simpl. now split.
      -- rewrite safe_wait_world, (elapse_due _ _ d' _ tm Ht Hle).
         reflexivity.
    * rewrite added_same; [intros [] |].
      rewrite safe_wait_world, (elapse_early _ _ d' _ tm Ht Hgt).
      reflexivity.
- destruct (Safe.mounted s) eqn:Em.
  + destruct (Safe.last_call tr) as [[hh a] |] eqn:El.
    * rewrite (added_app _ _ s _
                 [Invocation (now (Safe.world s)) (Safe.latest_func f tr) a
                             ByCleanup]).
      -- intros [<- | []]. exists hh. simpl. now split.
      -- simpl. rewrite Em. simpl. unfold Safe.cleanup.
         rewrite Ha, Hf. reflexivity.
    * rewrite added_same; [intros [] |].
      simpl. rewrite Em. simpl. unfold Safe.cleanup. now rewrite Ha.
  + rewrite added_same; [intros [] |]. simpl. now rewrite Em.
Qed.

(** C2, as the code has it.  If the handle was called at least once
    before the unmount, the unmount adds one call to the log, made by the
    cleanup with the arguments of the last call and the function of the
    latest render: the wrapped function is called at least once. *)
Theorem safe_unmount_invokes
  (f : Func) (d : Z) (tr : list (Safe.event Func Args)) :
  Safe.alive tr = true ->
  Safe.has_call tr = true ->
  exists hh a,
    Safe.last_call tr = Some (hh, a) /\
    log (Safe.world (Safe.run (Safe.mount f d) (tr ++ [Safe.Unmount]))) =
      log (Safe.world (Safe.run (Safe.mount f d) tr)) ++
      [Invocation (now (Safe.world (Safe.run (Safe.mount f d) tr)))
                  (Safe.latest_func f tr) a ByCleanup] /\
    (1 <= List.length
            (log (Safe.world
                    (Safe.run (Safe.mount f d) (tr ++ [Safe.Unmount])))))%nat.
Proof.
intros Hal Hc.
destruct (has_call_last _ _ tr None Hc) as [hh [a El]].
fold (Safe.last_call tr) in El.
destruct (safe_tracks _ _ f d tr) as [Hm [Hf [Ha _]]].
exists hh, a. split; [exact El |].
assert (E : log (Safe.world (Safe.run (Safe.mount f d) (tr ++ [Safe.Unmount]))) =
            log (Safe.world (Safe.run (Safe.mount f d) tr)) ++
            [Invocation (now (Safe.world (Safe.run (Safe.mount f d) tr)))
                        (Safe.latest_func f tr) a ByCleanup]).
{ rewrite safe_run_snoc. simpl. rewrite Hm, Hal. simpl.
  unfold Safe.cleanup. rewrite Ha, Hf, El. reflexivity. }
split; [exact E |].
rewrite E, length_app. simpl. lia.
Qed.

End DebounceClaims.

(** ** [useDebouncedState] *)

Section DebouncedStateFacts.
Variables V Func : Type.
Variable V_eq_dec : forall x y : V, {x = y} + {x <> y}.
Implicit Types (s : DebouncedState.inst V Func)
  (e : DebouncedState.event V Func) (p q : DebouncedState.props V Func)
  (h : handle Func) (v : V).

Local Abbreviation dstep := (DebouncedState.step V_eq_dec).
Local Abbreviation drun := (DebouncedState.run V_eq_dec).
Local Abbreviation dmount := (DebouncedState.mount V_eq_dec).
Local Abbreviation dsync := (DebouncedState.sync V_eq_dec).

Lemma ds_run_cons s e tr : drun s (e :: tr) = drun (dstep s e) tr.
Proof. reflexivity. Qed.

Lemma ds_rerender_frame s :
  let s' := DebouncedState.rerender s in
  DebouncedState.world s' = DebouncedState.world s /\
  DebouncedState.mounted s' = DebouncedState.mounted s /\
  DebouncedState.internalState s' = DebouncedState.internalState s /\
  Safe.timeoutRef (DebouncedState.deb s') =
    Safe.timeoutRef (DebouncedState.deb s).
Proof.
unfold DebouncedState.rerender.
destruct (DebouncedState.mounted s) eqn:Em; simpl; repeat split; auto.
Qed.

Lemma ds_sync_frame x s :
  let s' := dsync x s in
  DebouncedState.world s' = DebouncedState.world s /\
  DebouncedState.mounted s' = DebouncedState.mounted s /\
  DebouncedState.deb s' = DebouncedState.deb s /\
  DebouncedState.last s' = DebouncedState.last s /\
  DebouncedState.internalStateRef s' = DebouncedState.internalStateRef s.
Proof.
unfold DebouncedState.sync.
destruct (V_eq_dec x (DebouncedState.internalStateRef s)); simpl;
  repeat split.
Qed.

(** The effect leaves the state cell equal to the external value. *)
Lemma ds_sync_value x s :
  DebouncedState.internalStateRef s = DebouncedState.internalState s ->
  DebouncedState.internalState (dsync x s) = x.
Proof.
intros H. unfold DebouncedState.sync.
destruct (V_eq_dec x (DebouncedState.internalStateRef s)) as [E | N].
- now rewrite <- H, <- E.
- reflexivity.
Qed.

(** A render with the arguments of the render before it, on cells that
    this render has written, changes nothing: the model may render again
    after every update of the state cell, also where React would skip
    the render because the value is the one the cell holds. *)
Lemma ds_rerender_fixed s :
  DebouncedState.internalStateRef s = DebouncedState.internalState s ->
  Safe.funcRef (DebouncedState.deb s) =
    Some (DebouncedState.p_setState (DebouncedState.last s)) ->
  DebouncedState.rerender s = s.
Proof.
intros H1 H2. unfold DebouncedState.rerender.
destruct s as [i r l [t a f] m w]. simpl in *. subst r f.
destruct m; reflexivity.
Qed.

Lemma ds_render_world s p :
  DebouncedState.world (dstep s (DebouncedState.Render p)) =
  DebouncedState.world s /\
  Safe.timeoutRef (DebouncedState.deb (dstep s (DebouncedState.Render p))) =
  Safe.timeoutRef (DebouncedState.deb s).
Proof.
cbn [DebouncedState.step].
destruct (DebouncedState.mounted s) eqn:Em; [| now split].
destruct (V_eq_dec (DebouncedState.p_state p)
                   (DebouncedState.p_state (DebouncedState.last s))).
- now split.
- destruct (ds_rerender_frame
              (dsync (DebouncedState.p_state p)
                     (snd (DebouncedState.useDebouncedState p s))))
    as [R1 [_ [_ R4]]].
  destruct (ds_sync_frame (DebouncedState.p_state p)
              (snd (DebouncedState.useDebouncedState p s)))
    as [S1 [_ [S3 _]]].
  rewrite R1, R4, S1, S3. now split.
Qed.

(** What a call of the setter leaves in the host. *)
Lemma ds_setValue_world s h v :
  single (Safe.timeoutRef (DebouncedState.deb s)) (DebouncedState.world s) ->
  DebouncedState.world (dstep s (DebouncedState.SetValue h v)) =
    {| now := now (DebouncedState.world s);
       next_id := S (next_id (DebouncedState.world s));
       timers := [Timer (next_id (DebouncedState.world s))
                    (now (DebouncedState.world s) + timeout (h_delay h))
                    (h_func h) v];
       log := log (DebouncedState.world s) |} /\
  Safe.timeoutRef (DebouncedState.deb (dstep s (DebouncedState.SetValue h v))) =
    Some (next_id (DebouncedState.world s)).
Proof.
intros H. cbn [DebouncedState.step].
destruct (ds_rerender_frame (DebouncedState.handleSetState h v s))
  as [R1 [_ [_ R4]]].
rewrite R1, R4. unfold DebouncedState.handleSetState, Safe.debounced.
assert (E : forall s1 : DebouncedState.inst V Func,
          DebouncedState.world s1 = DebouncedState.world s ->
          DebouncedState.deb s1 = DebouncedState.deb s ->
          setTimeout (h_func h) v (h_delay h)
            (clearTimeout (Safe.timeoutRef (DebouncedState.deb s1))
                          (DebouncedState.world s1)) =
          (next_id (DebouncedState.world s),
           {| now := now (DebouncedState.world s);
              next_id := S (next_id (DebouncedState.world s));
              timers := [Timer (next_id (DebouncedState.world s))
                           (now (DebouncedState.world s) + timeout (h_delay h))
                           (h_func h) v];
              log := log (DebouncedState.world s) |})).
{ intros s1 E1 E2. rewrite E1, E2. now apply rearm_single. }
destruct (DebouncedState.mounted s); cbn [Safe.timeoutRef];
  rewrite E by reflexivity; now split.
Qed.

Lemma ds_setValue_value s h v :
  DebouncedState.mounted s = true ->
  DebouncedState.internalState (dstep s (DebouncedState.SetValue h v)) = v.
Proof.
intros Hm. cbn [DebouncedState.step].
destruct (ds_rerender_frame (DebouncedState.handleSetState h v s))
  as [_ [_ [R3 _]]].
rewrite R3. unfold DebouncedState.handleSetState, Safe.debounced, setTimeout.
rewrite Hm. reflexivity.
Qed.

Lemma ds_step_single s e :
  single (Safe.timeoutRef (DebouncedState.deb s)) (DebouncedState.world s) ->
  single (Safe.timeoutRef (DebouncedState.deb (dstep s e)))
         (DebouncedState.world (dstep s e)).
Proof.
intros H. destruct e as [p | h v | d |].
- destruct (ds_render_world s p) as [E1 E2]. now rewrite E1, E2.
- destruct (ds_setValue_world s h v H) as [E1 E2]. rewrite E1, E2.
  right. eexists. split; reflexivity.
- simpl. now apply single_elapse.
- simpl. destruct (DebouncedState.mounted s); [| exact H].
  simpl. now apply safe_cleanup_single.
Qed.

Lemma ds_run_single tr : forall s,
  single (Safe.timeoutRef (DebouncedState.deb s)) (DebouncedState.world s) ->
  single (Safe.timeoutRef (DebouncedState.deb (drun s tr)))
         (DebouncedState.world (drun s tr)).
Proof.
induction tr as [| e tr IH]; intros s H; [exact H |].
rewrite ds_run_cons. apply IH. now apply ds_step_single.
Qed.

Lemma ds_mount_single p :
  single (Safe.timeoutRef (DebouncedState.deb (dmount p)))
         (DebouncedState.world (dmount p)).
Proof.
left. unfold DebouncedState.mount.
match goal with |- context [DebouncedState.rerender ?x] =>
  destruct (ds_rerender_frame x) as [R1 _]; rewrite R1 end.
match goal with |- context [dsync ?x ?y] =>
  destruct (ds_sync_frame x y) as [S1 _]; rewrite S1 end.
reflexivity.
Qed.

(** After every event the cells are as a render leaves them. *)
Lemma ds_step_settled s e :
  DebouncedState.internalStateRef s = DebouncedState.internalState s /\
  Safe.funcRef (DebouncedState.deb s) =
    Some (DebouncedState.p_setState (DebouncedState.last s)) ->
  DebouncedState.internalStateRef (dstep s e) =
    DebouncedState.internalState (dstep s e) /\
  Safe.funcRef (DebouncedState.deb (dstep s e)) =
    Some (DebouncedState.p_setState (DebouncedState.last (dstep s e))).
Proof.
intros [H1 H2]. destruct s as [i r l [t a f] m w]. simpl in *. subst r f.
destruct e as [p | h v | d |]; simpl.
- destruct m; [| now split].
  destruct (V_eq_dec (DebouncedState.p_state p) (DebouncedState.p_state l));
    [now split |].
  unfold DebouncedState.sync, DebouncedState.rerender. simpl.
  destruct (V_eq_dec (DebouncedState.p_state p) i); simpl; now split.
- unfold DebouncedState.rerender, DebouncedState.handleSetState.
  destruct m; simpl; now split.
- now split.
- destruct m; simpl; now split.
Qed.

Lemma ds_reach_settled p tr :
  DebouncedState.rerender (drun (dmount p) tr) = drun (dmount p) tr.
Proof.
assert (H : forall tr s,
          DebouncedState.internalStateRef s = DebouncedState.internalState s /\
          Safe.funcRef (DebouncedState.deb s) =
            Some (DebouncedState.p_setState (DebouncedState.last s)) ->
          DebouncedState.internalStateRef (drun s tr) =
            DebouncedState.internalState (drun s tr) /\
          Safe.funcRef (DebouncedState.deb (drun s tr)) =
            Some (DebouncedState.p_setState (DebouncedState.last (drun s tr)))).
{ clear tr. induction tr as [| e tr IH]; intros s Hs; [exact Hs |].
  rewrite ds_run_cons. apply IH. now apply ds_step_settled. }
destruct (H tr (dmount p)) as [H1 H2].
- unfold DebouncedState.mount, DebouncedState.sync, DebouncedState.rerender.
  simpl. destruct (V_eq_dec (DebouncedState.p_state p) (DebouncedState.p_state p));
    simpl; now split.
- now apply ds_rerender_fixed.
Qed.

Lemma ds_elapsed_nonneg (tr : list (DebouncedState.event V Func)) :
  0 <= DebouncedState.elapsed tr.
Proof.
induction tr as [| x l IH]; simpl; [lia |]. destruct x; simpl; lia.
Qed.

(** While no timer is due before [t0] plus the delay, the setter is only
    called through handles with that delay and the instance stays
    mounted, nothing is added to the log before that time. *)
Lemma ds_window D evs : forall s t0,
  DebouncedState.steady D evs = true ->
  t0 <= now (DebouncedState.world s) ->
  (forall tm, In tm (timers (DebouncedState.world s)) ->
              t0 + timeout D <= tm_due tm) ->
  now (DebouncedState.world s) + DebouncedState.elapsed evs < t0 + timeout D ->
  single (Safe.timeoutRef (DebouncedState.deb s)) (DebouncedState.world s) ->
  log (DebouncedState.world (drun s evs)) = log (DebouncedState.world s).
Proof.
induction evs as [| e evs IH]; intros s t0 Hst Ht0 Hd Hel Hs; [reflexivity |].
simpl in Hst. apply andb_prop in Hst. destruct Hst as [He Hst].
rewrite ds_run_cons.
pose proof (ds_step_single s e Hs) as Hs'.
pose proof (ds_elapsed_nonneg evs) as Hnn.
destruct e as [p | h v | d |]; try discriminate.
- destruct (ds_render_world s p) as [E1 E2].
  rewrite (IH _ t0 Hst); [now rewrite E1 | now rewrite E1 | now rewrite E1
                         | now rewrite E1 | exact Hs'].
- destruct (ds_setValue_world s h v Hs) as [E1 E2].
  apply Z.eqb_eq in He.
  rewrite (IH _ t0 Hst); [now rewrite E1 | now rewrite E1 | | | exact Hs'].
  + rewrite E1. simpl. intros tm [<- | []]. simpl. rewrite He. lia.
  + rewrite E1. simpl. exact Hel.
- simpl in Hel.
  assert (Hw : DebouncedState.world (dstep s (DebouncedState.Wait d)) =
               {| now := now (DebouncedState.world s) + Z.max 0 d;
                  next_id := next_id (DebouncedState.world s);
                  timers := timers (DebouncedState.world s);
                  log := log (DebouncedState.world s) |}).
  { cbn [DebouncedState.step DebouncedState.world]. apply elapse_idle.
    intros tm Hin. specialize (Hd tm Hin). lia. }
  rewrite (IH _ t0 Hst); [now rewrite Hw | | | | exact Hs'].
  + rewrite Hw. simpl. lia.
  + rewrite Hw. simpl. exact Hd.
  + rewrite Hw. simpl. lia.
Qed.

Lemma ds_step_mounted s e :
  DebouncedState.mounted (dstep s e) =
  DebouncedState.mounted s && negb (DebouncedState.is_unmount e).
Proof.
destruct e as [p | h v | d |].
- cbn [DebouncedState.step DebouncedState.is_unmount negb].
  rewrite andb_true_r.
  destruct (DebouncedState.mounted s) eqn:Em; [| exact Em].
  destruct (V_eq_dec (DebouncedState.p_state p)
                     (DebouncedState.p_state (DebouncedState.last s))).
  + exact Em.
  + match goal with |- context [DebouncedState.rerender ?x] =>
      destruct (ds_rerender_frame x) as [_ [R2 _]]; rewrite R2 end.
    match goal with |- context [dsync ?x ?y] =>
      destruct (ds_sync_frame x y) as [_ [S2 _]]; rewrite S2 end.
    exact Em.
- cbn [DebouncedState.step DebouncedState.is_unmount negb].
  rewrite andb_true_r.
  destruct (ds_rerender_frame (DebouncedState.handleSetState h v s))
    as [_ [R2 _]].
  rewrite R2. unfold DebouncedState.handleSetState, Safe.debounced, setTimeout.
  destruct (DebouncedState.mounted s) eqn:Em; simpl; now rewrite ?Em.
- simpl. now rewrite andb_true_r.
- simpl. rewrite andb_false_r. now destruct (DebouncedState.mounted s) eqn:Em.
Qed.

Lemma ds_run_mounted tr : forall s,
  DebouncedState.mounted (drun s tr) =
  DebouncedState.mounted s && DebouncedState.alive tr.
Proof.
induction tr as [| e tr IH]; intros s.
- simpl. now rewrite andb_true_r.
- rewrite ds_run_cons, IH, ds_step_mounted. simpl. now rewrite andb_assoc.
Qed.

Lemma ds_mount_mounted p : DebouncedState.mounted (dmount p) = true.
Proof.
unfold DebouncedState.mount.
match goal with |- context [DebouncedState.rerender ?x] =>
  destruct (ds_rerender_frame x) as [_ [R2 _]]; rewrite R2 end.
match goal with |- context [dsync ?x ?y] =>
  destruct (ds_sync_frame x y) as [_ [S2 _]]; rewrite S2 end.
reflexivity.
Qed.

(** A render with the external value of the render before it leaves the
    state cell alone: a local edit stays until the external value
    changes. *)
Lemma ds_render_same_keeps s p :
  DebouncedState.p_state p = DebouncedState.p_state (DebouncedState.last s) ->
  DebouncedState.internalState (dstep s (DebouncedState.Render p)) =
  DebouncedState.internalState s.
Proof.
intros E. cbn [DebouncedState.step].
destruct (DebouncedState.mounted s); [| reflexivity].
destruct (V_eq_dec (DebouncedState.p_state p)
                   (DebouncedState.p_state (DebouncedState.last s)));
  [reflexivity | contradiction].
Qed.

(** C6, as the code has it.  For a delay up to [max_delay], on a mounted
    instance: a call of the setter with [v] makes the next render return
    [v], whatever its arguments, and adds nothing to the log; and as long
    as less than the delay has passed, the instance is not unmounted and
    the setter is only called through handles with the same delay, the
    log stays as it was: the external setter has not been called. *)
Theorem setValue_shows_at_once_and_defers
  p (tr : list (DebouncedState.event V Func)) h v
  (evs : list (DebouncedState.event V Func)) q :
  DebouncedState.alive tr = true ->
  DebouncedState.steady (h_delay h) evs = true ->
  h_delay h <= max_delay ->
  DebouncedState.elapsed evs < h_delay h ->
  let s := drun (dmount p) tr in
  let s1 := dstep s (DebouncedState.SetValue h v) in
  DebouncedState.currentValue q s1 = v /\
  log (DebouncedState.world s1) = log (DebouncedState.world s) /\
  log (DebouncedState.world (drun s1 evs)) = log (DebouncedState.world s).
Proof.
intros Hal Hst Hmax Hel s s1.
pose proof (ds_elapsed_nonneg evs) as Hnn.
assert (E : timeout (h_delay h) = h_delay h)
  by (apply timeout_in_range; lia).
rewrite <- E in Hel.
assert (Hm : DebouncedState.mounted s = true).
{ unfold s. now rewrite ds_run_mounted, ds_mount_mounted, Hal. }
assert (Hs : single (Safe.timeoutRef (DebouncedState.deb s))
                    (DebouncedState.world s)).
{ apply ds_run_single, ds_mount_single. }
destruct (ds_setValue_world s h v Hs) as [E1 E2]. fold s1 in E1, E2.
split; [| split].
- unfold DebouncedState.currentValue. simpl. now apply ds_setValue_value.
- now rewrite E1.
- rewrite (ds_window (h_delay h) evs s1 (now (DebouncedState.world s)) Hst).
  + now rewrite E1.
  + rewrite E1. simpl. lia.
  + rewrite E1. simpl. intros tm [<- | []]. simpl. lia.
  + rewrite E1. simpl. lia.
  + now apply ds_step_single.
Qed.

(** C7.  The external value is observed by the effect on [[state]], which
    runs at the mount and at every render whose [state] differs from that
    of the render before.  When it runs and the value differs from
    [internalStateRef.current], the state cell is overwritten with it.
    So on a mounted instance, with or without a timer pending, a render
    with a changed external value leaves the state cell, and what the
    next render returns, equal to that value; the host is not touched. *)
Theorem external_change_overwrites s p q :
  DebouncedState.mounted s = true ->
  DebouncedState.p_state p <> DebouncedState.p_state (DebouncedState.last s) ->
  let s' := dstep s (DebouncedState.Render p) in
  (forall x s0, x <> DebouncedState.internalStateRef s0 ->
                DebouncedState.internalState (dsync x s0) = x) /\
  DebouncedState.internalState (dmount p) = DebouncedState.p_state p /\
  DebouncedState.internalState s' = DebouncedState.p_state p /\
  DebouncedState.currentValue q s' = DebouncedState.p_state p /\
  DebouncedState.world s' = DebouncedState.world s.
Proof.
intros Hm Hne s'.
assert (Hi : DebouncedState.internalState s' = DebouncedState.p_state p).
{ unfold s'. cbn [DebouncedState.step]. rewrite Hm.
  destruct (V_eq_dec (DebouncedState.p_state p)
                     (DebouncedState.p_state (DebouncedState.last s)));
    [contradiction |].
  match goal with |- context [DebouncedState.rerender ?x] =>
    destruct (ds_rerender_frame x) as [_ [_ [R3 _]]]; rewrite R3 end.
  apply ds_sync_value. reflexivity. }
split; [| split; [| split; [| split]]].
- intros x s0 Hx. unfold DebouncedState.sync.
  destruct (V_eq_dec x (DebouncedState.internalStateRef s0));
    [contradiction | reflexivity].
- unfold DebouncedState.mount.
  match goal with |- context [DebouncedState.rerender ?x] =>
    destruct (ds_rerender_frame x) as [_ [_ [R3 _]]]; rewrite R3 end.
  apply ds_sync_value. reflexivity.
- exact Hi.
- unfold DebouncedState.currentValue. simpl. exact Hi.
- apply ds_render_world.
Qed.

End DebouncedStateFacts.

(** ** Scenarios *)

Section Scenarios.
Open Scope string_scope.
Open Scope list_scope.

Ltac zcalc := vm_compute; repeat split; (reflexivity || discriminate).

(** Calls with [a] at 0 and [b] at 100, delay 500: one call, at 600, with
    [b]. *)
Lemma burst_fires_once_witness :
  log (Unsafe.world
         (Unsafe.run (Unsafe.mount "save" 500)
            (Unsafe.burst save500 ["a"] [(100, ["b"])] ++ [Unsafe.Wait 500])))
  = [Invocation 600 "save" ["b"] ByTimer] /\
  log (Safe.world
         (Safe.run (Safe.mount "save" 500)
            (Safe.burst save500 ["a"] [(100, ["b"])] ++ [Safe.Wait 500])))
  = [Invocation 600 "save" ["b"] ByTimer].
Proof.
apply (burst_fires_once_with_last_args string (list string)
         save500 ["a"] [(100, ["b"])] 500
         (Unsafe.mount "save" 500) (Safe.mount "save" 500)).
- zcalc.
- apply Forall_cons; [simpl; lia | apply Forall_nil].
- simpl; lia.
- reflexivity.
- reflexivity.
Defined.

(** With a delay of [2^31] the timer fires at once: calls at 0 and at
    100 are both delivered, the first with the first arguments.  C4, as
    stated, fails there. *)
Lemma large_delay_burst_fires_each_call :
  ~ (forall (d : Z) (rest : list (Z * list string)) (w : Z),
       Forall (fun p => 0 <= fst p < d) rest ->
       Z.max 0 d <= w ->
       log (Unsafe.world
              (Unsafe.run (Unsafe.mount "save" d)
                 (Unsafe.burst (fst (Unsafe.useUnsafeDebounce "save" d
                                       {| Unsafe.timeoutRef := None |}))
                               ["a"] rest ++ [Unsafe.Wait w])))
       = [Invocation (span rest + d) "save" (last_args ["a"] rest) ByTimer] /\
       log (Safe.world
              (Safe.run (Safe.mount "save" d)
                 (Safe.burst (fst (Safe.useDebounce (Args := list string)
                                     "save" d Safe.fresh))
                             ["a"] rest ++ [Safe.Wait w])))
       = [Invocation (span rest + d) "save" (last_args ["a"] rest) ByTimer]).
Proof.
intros H.
specialize (H 2147483648 [(100, ["b"])] 2147483648).
destruct H as [_ H].
- apply Forall_cons; [simpl; lia | apply Forall_nil].
- simpl; lia.
- vm_compute in H. discriminate H.
Qed.

(** The unsafe hook: a call at 0, the unmount at 50, and the wrapped
    function is still called at 500. *)
Lemma unsafe_unmount_keeps_timer_witness :
  log (Unsafe.world
         (Unsafe.run (Unsafe.mount "save" 500)
            [Unsafe.Call save500 ["a"]; Unsafe.Wait 50; Unsafe.Unmount;
             Unsafe.Wait 450]))
  = [Invocation 500 "save" ["a"] ByTimer].
Proof.
apply (unsafe_unmount_keeps_timer string (list string)
         (Unsafe.mount "save" 500) save500 ["a"] 50 450).
- reflexivity.
- zcalc.
- zcalc.
Defined.

Lemma safe_no_call_no_invocation_witness :
  log (Safe.world
         (Safe.run (Args := list string) (Safe.mount "save" 500)
            ([Safe.Render "save2" 500; Safe.Wait 1000] ++ [Safe.Unmount])))
  = [].
Proof.
apply (safe_no_call_no_invocation string (list string) "save" 500
         [Safe.Render "save2" 500; Safe.Wait 1000]).
reflexivity.
Defined.

(** A call with [42] at 0 and the unmount at 50: the unmount adds the one
    call, with [42]. *)
Lemma safe_unmount_flushes_witness :
  Safe.added
    (Safe.run (Safe.run (Safe.mount "save" 500) [])
       [Safe.Call save500 ["42"]; Safe.Wait 50])
    Safe.Unmount
  = [Invocation 50 "save" ["42"] ByCleanup].
Proof.
apply (safe_unmount_flushes_last_call string (list string) "save" 500 []
         save500 ["42"] [Safe.Wait 50]).
- reflexivity.
- reflexivity.
- zcalc.
- simpl; lia.
Defined.

(** C3, as stated, fails for a delay of [2^31]: the timer fires at once,
    before the unmount at 50, and the unmount calls the wrapped function
    a second time. *)
Lemma large_delay_fires_before_unmount :
  ~ (forall (d : Z) (evs : list (Safe.event string (list string))),
       Safe.quiet evs = true ->
       Safe.elapsed evs < d ->
       log (Safe.world
              (Safe.run (Safe.mount "save" d)
                 (Safe.Call (fst (Safe.useDebounce (Args := list string)
                                    "save" d Safe.fresh)) ["42"]
                  :: evs ++ [Safe.Unmount])))
       = [Invocation (Safe.elapsed evs) "save" ["42"] ByCleanup]).
Proof.
intros H.
specialize (H 2147483648 [Safe.Wait 50] eq_refl).
assert (E : Safe.elapsed
              [Safe.Wait (Func := string) (Args := list string) 50]
            < 2147483648) by (simpl; lia).
specialize (H E). vm_compute in H. discriminate H.
Qed.

(** A call, the timer fires at 500, the function changes, and the unmount
    at 700 calls the new function with the arguments already delivered. *)
Lemma argsRef_survives_witness :
  log (Safe.world
         (Safe.run
            (Safe.run (Safe.run (Safe.mount "save" 500) [])
               [Safe.Call save500 ["a"]; Safe.Wait 500])
            ([Safe.Render "save2" 500; Safe.Wait 200] ++ [Safe.Unmount])))
  = [Invocation 500 "save" ["a"] ByTimer;
     Invocation 700 "save2" ["a"] ByCleanup].
Proof.
apply (argsRef_survives_timer_fire string (list string) "save" 500 []
         save500 ["a"] 500 [Safe.Render "save2" 500; Safe.Wait 200]).
- reflexivity.
- zcalc.
- reflexivity.
Defined.

(** The timer calls the function of the handle, not the one of the
    latest render. *)
Lemma invocation_func_and_args_witness :
  exists hh,
    Safe.last_call [Safe.Call f1_500 ["a"]; Safe.Render "f2" 500]
      = Some (hh, ["a"]) /\
    "f1" = h_func hh.
Proof.
apply (invocation_func_and_args string (list string) "f1" 500
         [Safe.Call f1_500 ["a"]; Safe.Render "f2" 500] (Safe.Wait 500)
         (Invocation 500 "f1" ["a"] ByTimer)).
simpl. left. reflexivity.
Defined.

Lemma safe_unmount_invokes_witness :
  exists hh a,
    Safe.last_call [Safe.Call save500 ["a"]; Safe.Wait 500] = Some (hh, a) /\
    log (Safe.world
           (Safe.run (Safe.mount "save" 500)
              ([Safe.Call save500 ["a"]; Safe.Wait 500] ++ [Safe.Unmount])))
    = log (Safe.world
             (Safe.run (Safe.mount "save" 500)
                [Safe.Call save500 ["a"]; Safe.Wait 500])) ++
      [Invocation 500 "save" a ByCleanup] /\
    (1 <= List.length
            (log (Safe.world
                    (Safe.run (Safe.mount "save" 500)
                       ([Safe.Call save500 ["a"]; Safe.Wait 500] ++
                        [Safe.Unmount])))))%nat.
Proof.
apply (safe_unmount_invokes string (list string) "save" 500
         [Safe.Call save500 ["a"]; Safe.Wait 500]).
- reflexivity.
- reflexivity.
Defined.

(** C2, as stated, fails: a call, the timer fires, and then the unmount
    calls the wrapped function a second time. *)
Lemma safe_not_exactly_once :
  ~ (forall tr : list (Safe.event string (list string)),
       Safe.alive tr = true ->
       Safe.has_call tr = true ->
       List.length
         (log (Safe.world
                 (Safe.run (Safe.mount "save" 500) (tr ++ [Safe.Unmount]))))
       = 1%nat).
Proof.
intros H.
specialize (H [Safe.Call save500 ["a"]; Safe.Wait 500] eq_refl eq_refl).
vm_compute in H. discriminate H.
Qed.

(** C5, as stated, fails at the timer: the function changes to [f2]
    while the call is pending, and the timer still calls [f1]. *)
Lemma timer_fire_uses_captured_func :
  ~ (forall (tr : list (Safe.event string (list string))) e i,
       In i (Safe.added (Safe.run (Safe.mount "f1" 500) tr) e) ->
       inv_func i = Safe.latest_func "f1" tr).
Proof.
intros H.
specialize (H [Safe.Call f1_500 ["a"]; Safe.Render "f2" 500] (Safe.Wait 500)
              (Invocation 500 "f1" ["a"] ByTimer)).
simpl in H. specialize (H (or_introl eq_refl)). discriminate H.
Qed.

(** The setter is called with [y]; the next render returns [y]; 100 ms
    later the external value changes, and the external setter has not
    been called. *)
Lemma setValue_witness :
  DebouncedState.currentValue (propsX "x")
    (DebouncedState.step string_dec
       (DebouncedState.run string_dec
          (DebouncedState.mount string_dec (propsX "x")) [])
       (DebouncedState.SetValue setX500 "y")) = "y" /\
  log (DebouncedState.world
         (DebouncedState.step string_dec
            (DebouncedState.run string_dec
               (DebouncedState.mount string_dec (propsX "x")) [])
            (DebouncedState.SetValue setX500 "y"))) = [] /\
  log (DebouncedState.world
         (DebouncedState.run string_dec
            (DebouncedState.step string_dec
               (DebouncedState.run string_dec
                  (DebouncedState.mount string_dec (propsX "x")) [])
               (DebouncedState.SetValue setX500 "y"))
            [DebouncedState.Wait 100; DebouncedState.Render (propsX "z");
             DebouncedState.Wait 399])) = [].
Proof.
apply (setValue_shows_at_once_and_defers string string string_dec
         (propsX "x") [] setX500 "y"
         [DebouncedState.Wait 100; DebouncedState.Render (propsX "z");
          DebouncedState.Wait 399] (propsX "x")).
- reflexivity.
- reflexivity.
- zcalc.
- simpl; lia.
Defined.

(** C6, as stated, fails in three ways, each before the delay has
    passed: the unmount 50 ms after the call of the setter calls the
    external setter at once; with a delay of [2^31] the timer calls it at
    once, on a mounted instance; and after a render with a delay of 10 a
    call through the new setter gets the external setter called 10 ms
    later. *)
Lemma setter_called_before_delay :
  ~ (forall evs : list (DebouncedState.event string string),
       DebouncedState.elapsed evs < 500 ->
       log (DebouncedState.world
              (DebouncedState.run string_dec
                 (DebouncedState.step string_dec
                    (DebouncedState.mount string_dec (propsX "x"))
                    (DebouncedState.SetValue setX500 "y"))
                 evs)) = []) /\
  ~ (forall evs : list (DebouncedState.event string string),
       DebouncedState.alive evs = true ->
       DebouncedState.elapsed evs < 2147483648 ->
       log (DebouncedState.world
              (DebouncedState.run string_dec
                 (DebouncedState.step string_dec
                    (DebouncedState.mount string_dec propsBig)
                    (DebouncedState.SetValue setXBig "y"))
                 evs)) = []) /\
  ~ (forall evs : list (DebouncedState.event string string),
       DebouncedState.alive evs = true ->
       DebouncedState.elapsed evs < 500 ->
       log (DebouncedState.world
              (DebouncedState.run string_dec
                 (DebouncedState.step string_dec
                    (DebouncedState.mount string_dec (propsX "x"))
                    (DebouncedState.SetValue setX500 "y"))
                 evs)) = []).
Proof.
split; [| split]; intros H.
- specialize (H [DebouncedState.Wait 50; DebouncedState.Unmount]).
  assert (E : DebouncedState.elapsed
                [DebouncedState.Wait (V := string) (Func := string) 50;
                 DebouncedState.Unmount] < 500) by (simpl; lia).
  specialize (H E). vm_compute in H. discriminate H.
- specialize (H [DebouncedState.Wait 1] eq_refl).
  assert (E : DebouncedState.elapsed
                [DebouncedState.Wait (V := string) (Func := string) 1]
              < 2147483648) by (simpl; lia).
  specialize (H E). vm_compute in H. discriminate H.
- specialize (H [DebouncedState.Render props10;
                 DebouncedState.SetValue setX10 "w";
                 DebouncedState.Wait 10] eq_refl).
  assert (E : DebouncedState.elapsed
                [DebouncedState.Render props10;
                 DebouncedState.SetValue setX10 "w";
                 DebouncedState.Wait 10] < 500) by (simpl; lia).
  specialize (H E). vm_compute in H. discriminate H.
Qed.

(** External value [x], a local edit [y], then the external value becomes
    [z] while the timer is pending: the current value is [z]. *)
Lemma external_change_witness :
  DebouncedState.internalState
    (DebouncedState.step string_dec
       (DebouncedState.run string_dec
          (DebouncedState.mount string_dec (propsX "x"))
          [DebouncedState.SetValue setX500 "y"; DebouncedState.Wait 100])
       (DebouncedState.Render (propsX "z"))) = "z".
Proof.
apply (external_change_overwrites string string string_dec
         (DebouncedState.run string_dec
            (DebouncedState.mount string_dec (propsX "x"))
            [DebouncedState.SetValue setX500 "y"; DebouncedState.Wait 100])
         (propsX "z") (propsX "z")).
- reflexivity.
- simpl. discriminate.
Defined.

End Scenarios.

(** ** More on the two debounce hooks *)

Section MoreDebounceFacts.
Variables Func Args : Type.

Lemma safe_run_app (s : Safe.inst Func Args) tr1 tr2 :
  Safe.run s (tr1 ++ tr2) = Safe.run (Safe.run s tr1) tr2.
Proof. unfold Safe.run. now rewrite fold_left_app. Qed.

Lemma safe_run_one (s : Safe.inst Func Args) e :
  Safe.run s [e] = Safe.step s e.
Proof. reflexivity. Qed.

(** A call and a wait that reaches its deadline, whatever was pending. *)
Lemma unsafe_call_wait (s : Unsafe.inst Func Args) h a w :
  single (Unsafe.timeoutRef (Unsafe.cells s)) (Unsafe.world s) ->
  timeout (h_delay h) <= w ->
  Unsafe.world (Unsafe.run s [Unsafe.Call h a; Unsafe.Wait w]) =
  {| now := now (Unsafe.world s) + Z.max 0 w;
     next_id := S (next_id (Unsafe.world s));
     timers := [];
     log := log (Unsafe.world s) ++
            [Invocation (now (Unsafe.world s) + timeout (h_delay h))
                        (h_func h) a ByTimer] |}.
Proof.
intros Hs Hw. pose proof (timeout_nonneg (h_delay h)) as Hnn.
rewrite !unsafe_run_cons. cbn [Unsafe.run fold_left].
rewrite unsafe_wait_world, (unsafe_call _ _ s h a Hs). cbn [Unsafe.world].
erewrite (elapse_due _ _ w); [| reflexivity | cbn [tm_due now]; lia].
unfold fire. cbn [tm_due tm_func tm_args now next_id log].
match goal with
| |- context [Z.max (now ?x) ?y] => rewrite (Z.max_r (now x) y) by lia
end.
reflexivity.
Qed.

Lemma safe_call_wait (s : Safe.inst Func Args) h a w :
  single (Safe.timeoutRef (Safe.cells s)) (Safe.world s) ->
  timeout (h_delay h) <= w ->
  Safe.world (Safe.run s [Safe.Call h a; Safe.Wait w]) =
  {| now := now (Safe.world s) + Z.max 0 w;
     next_id := S (next_id (Safe.world s));
     timers := [];
     log := log (Safe.world s) ++
            [Invocation (now (Safe.world s) + timeout (h_delay h))
                        (h_func h) a ByTimer] |}.
Proof.
intros Hs Hw. pose proof (timeout_nonneg (h_delay h)) as Hnn.
rewrite !safe_run_cons. cbn [Safe.run fold_left].
rewrite safe_wait_world, (safe_call _ _ s h a Hs). cbn [Safe.world].
erewrite (elapse_due _ _ w); [| reflexivity | cbn [tm_due now]; lia].
unfold fire. cbn [tm_due tm_func tm_args now next_id log].
match goal with
| |- context [Z.max (now ?x) ?y] => rewrite (Z.max_r (now x) y) by lia
end.
reflexivity.
Qed.

Lemma unsafe_spaced_run h (calls : list (Args * Z)) :
  forall s : Unsafe.inst Func Args,
  timeout (h_delay h) = h_delay h ->
  Forall (fun c => h_delay h <= snd c) calls ->
  timers (Unsafe.world s) = [] ->
  log (Unsafe.world (Unsafe.run s (unsafe_spaced h calls))) =
  log (Unsafe.world s) ++ spaced_log h (now (Unsafe.world s)) calls.
Proof.
induction calls as [| [a w] calls IH]; intros s Ed Hc Ht.
- simpl. now rewrite app_nil_r.
- inversion Hc as [| ? ? Hw Hrest]; subst. simpl in Hw. rewrite <- Ed in Hw.
  unfold unsafe_spaced. cbn [flat_map fst snd].
  change ([Unsafe.Call h a; Unsafe.Wait w] ++ ?l)
    with (Unsafe.Call h a :: Unsafe.Wait w :: l).
  change (Unsafe.run s (Unsafe.Call h a :: Unsafe.Wait w :: ?l))
    with (Unsafe.run (Unsafe.run s [Unsafe.Call h a; Unsafe.Wait w]) l).
  pose proof (unsafe_call_wait s h a w (single_nil _ _ _ _ Ht) Hw) as E.
  fold (unsafe_spaced h calls). rewrite Ed in E. rewrite IH; [| exact Ed | exact Hrest | now rewrite E].
  rewrite E. cbn [log now spaced_log fst snd]. now rewrite <- app_assoc.
Qed.

Lemma safe_spaced_run h (calls : list (Args * Z)) :
  forall s : Safe.inst Func Args,
  timeout (h_delay h) = h_delay h ->
  Forall (fun c => h_delay h <= snd c) calls ->
  timers (Safe.world s) = [] ->
  log (Safe.world (Safe.run s (safe_spaced h calls))) =
  log (Safe.world s) ++ spaced_log h (now (Safe.world s)) calls.
Proof.
induction calls as [| [a w] calls IH]; intros s Ed Hc Ht.
- simpl. now rewrite app_nil_r.
- inversion Hc as [| ? ? Hw Hrest]; subst. simpl in Hw. rewrite <- Ed in Hw.
  unfold safe_spaced. cbn [flat_map fst snd].
  change ([Safe.Call h a; Safe.Wait w] ++ ?l)
    with (Safe.Call h a :: Safe.Wait w :: l).
  change (Safe.run s (Safe.Call h a :: Safe.Wait w :: ?l))
    with (Safe.run (Safe.run s [Safe.Call h a; Safe.Wait w]) l).
  pose proof (safe_call_wait s h a w (single_nil _ _ _ _ Ht) Hw) as E.
  fold (safe_spaced h calls). rewrite Ed in E. rewrite IH; [| exact Ed | exact Hrest | now rewrite E].
  rewrite E. cbn [log now spaced_log fst snd]. now rewrite <- app_assoc.
Qed.

(** X2. For a delay that the timer takes as it is, from 0 to [max_delay]:
    calls of one handle that are each followed by a wait of at least the
    delay are all delivered: started with no timer pending, the log gains
    one call by the timer for each call of the handle, in order, each
    with its own arguments, the delay after it was made.  This holds for
    both hooks. *)
Theorem spaced_calls_all_fire
  (h : handle Func) (calls : list (Args * Z))
  (su : Unsafe.inst Func Args) (ss : Safe.inst Func Args) :
  0 <= h_delay h <= max_delay ->
  Forall (fun c => h_delay h <= snd c) calls ->
  timers (Unsafe.world su) = [] ->
  timers (Safe.world ss) = [] ->
  log (Unsafe.world (Unsafe.run su (unsafe_spaced h calls))) =
    log (Unsafe.world su) ++ spaced_log h (now (Unsafe.world su)) calls /\
  log (Safe.world (Safe.run ss (safe_spaced h calls))) =
    log (Safe.world ss) ++ spaced_log h (now (Safe.world ss)) calls.
Proof.
intros Hr Hc Hu Hs.
pose proof (timeout_in_range (h_delay h) Hr) as Ed.
split.
- now apply unsafe_spaced_run.
- now apply safe_spaced_run.
Qed.

(** X5. The last call wins from any state the instance can reach, also
    after the unmount: a call of the handle followed by a wait of at
    least the delay adds exactly one call to the log, with the arguments
    of that call, and whatever was pending before is never delivered.
    This holds for both hooks. *)
Theorem call_supersedes_pending
  (f : Func) (d : Z) (tu : list (Unsafe.event Func Args))
  (ts : list (Safe.event Func Args)) (h : handle Func) (a : Args) (w : Z) :
  timeout (h_delay h) <= w ->
  let su := Unsafe.run (Unsafe.mount f d) tu in
  let ss := Safe.run (Safe.mount f d) ts in
  (log (Unsafe.world (Unsafe.run su [Unsafe.Call h a; Unsafe.Wait w])) =
     log (Unsafe.world su) ++
     [Invocation (now (Unsafe.world su) + timeout (h_delay h))
                 (h_func h) a ByTimer] /\
   timers (Unsafe.world (Unsafe.run su [Unsafe.Call h a; Unsafe.Wait w])) = []) /\
  (log (Safe.world (Safe.run ss [Safe.Call h a; Safe.Wait w])) =
     log (Safe.world ss) ++
     [Invocation (now (Safe.world ss) + timeout (h_delay h))
                 (h_func h) a ByTimer] /\
   timers (Safe.world (Safe.run ss [Safe.Call h a; Safe.Wait w])) = []).
Proof.
intros Hw su ss. split.
- rewrite (unsafe_call_wait su h a w); [now split | | exact Hw].
  apply unsafe_run_single, unsafe_mount_single.
- rewrite (safe_call_wait ss h a w); [now split | | exact Hw].
  apply safe_reach_single.
Qed.

End MoreDebounceFacts.

Section DebounceCounting.
Variables Func Args : Type.

Lemma unsafe_calls_snoc (tr : list (Unsafe.event Func Args)) e :
  unsafe_calls (tr ++ [e]) =
  (unsafe_calls tr + if unsafe_is_call e then 1 else 0)%nat.
Proof.
unfold unsafe_calls. rewrite filter_app, length_app. simpl.
destruct (unsafe_is_call e); reflexivity.
Qed.

Lemma safe_calls_snoc (tr : list (Safe.event Func Args)) e :
  safe_calls (tr ++ [e]) =
  (safe_calls tr + if Safe.is_call e then 1 else 0)%nat.
Proof.
unfold safe_calls. rewrite filter_app, length_app. simpl.
destruct (Safe.is_call e); reflexivity.
Qed.

(** Every call of the handle pays for at most one call of the wrapped
    function, made or still pending. *)
Lemma unsafe_count (f : Func) d (tr : list (Unsafe.event Func Args)) :
  let s := Unsafe.run (Unsafe.mount f d) tr in
  (List.length (log (Unsafe.world s)) + List.length (timers (Unsafe.world s))
   <= unsafe_calls tr)%nat.
Proof.
induction tr as [| e tr IH] using rev_ind; [simpl; lia |].
cbv zeta in *. rewrite unsafe_run_snoc, unsafe_calls_snoc.
pose proof (unsafe_run_single _ _ tr _ (unsafe_mount_single _ _ f d)) as Hs.
set (s := Unsafe.run (Unsafe.mount f d) tr) in *.
destruct e as [g d' | h a | d' |].
- simpl. destruct (Unsafe.mounted s); simpl; lia.
- rewrite (unsafe_call _ _ s h a Hs). simpl. lia.
- rewrite unsafe_wait_world. cbn [unsafe_is_call].
  destruct Hs as [Ht | [tm [Ht Hr]]].
  + rewrite (elapse_nil _ _ d' _ Ht). rewrite Ht in IH. simpl in *. lia.
  + destruct (Z.le_gt_cases (tm_due tm) (now (Unsafe.world s) + Z.max 0 d'))
      as [Hle | Hgt].
    * rewrite (elapse_due _ _ d' _ tm Ht Hle). rewrite Ht in IH.
      cbn [log timers]. rewrite length_app. simpl in *. lia.
    * rewrite (elapse_early _ _ d' _ tm Ht Hgt). rewrite Ht in IH.
      simpl in *. lia.
- simpl. lia.
Qed.

Lemma safe_count (f : Func) d (tr : list (Safe.event Func Args)) :
  let s := Safe.run (Safe.mount f d) tr in
  (List.length (log (Safe.world s)) + List.length (timers (Safe.world s))
   <= safe_calls tr + if Safe.alive tr then 0 else 1)%nat.
Proof.
induction tr as [| e tr IH] using rev_ind; [simpl; lia |].
cbv zeta in *. rewrite safe_run_snoc, safe_calls_snoc, alive_snoc.
pose proof (safe_reach_single _ _ f d tr) as Hs.
destruct (safe_tracks _ _ f d tr) as [Hm _].
set (s := Safe.run (Safe.mount f d) tr) in *.
destruct e as [g d' | h a | d' |].
- simpl. rewrite andb_true_r. destruct (Safe.mounted s); simpl; lia.
- rewrite (safe_call _ _ s h a Hs). simpl. rewrite andb_true_r.
  destruct (Safe.alive tr); simpl in *; lia.
- rewrite safe_wait_world. cbn [Safe.is_call Safe.is_unmount negb].
  rewrite andb_true_r.
  destruct Hs as [Ht | [tm [Ht Hr]]].
  + rewrite (elapse_nil _ _ d' _ Ht). rewrite Ht in IH. simpl in *. lia.
  + destruct (Z.le_gt_cases (tm_due tm) (now (Safe.world s) + Z.max 0 d'))
      as [Hle | Hgt].
    * rewrite (elapse_due _ _ d' _ tm Ht Hle). rewrite Ht in IH.
      cbn [log timers]. rewrite length_app. simpl in *. lia.
    * rewrite (elapse_early _ _ d' _ tm Ht Hgt). rewrite Ht in IH.
      simpl in *. lia.
- cbn [Safe.step Safe.is_call Safe.is_unmount negb]. rewrite andb_false_r.
  rewrite Hm. destruct (Safe.alive tr).
  + cbn [Safe.world]. unfold Safe.cleanup.
    destruct (Safe.argsRef (Safe.cells s));
      [destruct (Safe.funcRef (Safe.cells s)) |];
      cbn [invoke log timers]; rewrite ?length_app; simpl in *; lia.
  + lia.
Qed.

(** X3. The hooks never call the wrapped function more often than they
    are asked to: after any trace, [useUnsafeDebounce] has made at most
    as many calls as the handle received; [useDebounce] has made at most
    as many while the instance is mounted, and at most one more after
    the unmount. *)
Theorem invocations_bounded_by_calls
  (f : Func) (d : Z) (tu : list (Unsafe.event Func Args))
  (ts : list (Safe.event Func Args)) :
  (List.length (log (Unsafe.world (Unsafe.run (Unsafe.mount f d) tu)))
   <= unsafe_calls tu)%nat /\
  (List.length (log (Safe.world (Safe.run (Safe.mount f d) ts)))
   <= safe_calls ts + if Safe.alive ts then 0 else 1)%nat.
Proof.
pose proof (unsafe_count f d tu) as Hu.
pose proof (safe_count f d ts) as Hs.
cbv zeta in *. split; lia.
Qed.

(** The timers and the log of the unsafe hook hold only what calls of the
    handle put there. *)
Lemma unsafe_origin (f : Func) d (tr : list (Unsafe.event Func Args)) :
  let s := Unsafe.run (Unsafe.mount f d) tr in
  (forall tm, In tm (timers (Unsafe.world s)) ->
     exists h, In (Unsafe.Call h (tm_args tm)) tr /\ tm_func tm = h_func h) /\
  (forall i, In i (log (Unsafe.world s)) ->
     inv_by i = ByTimer /\
     exists h, In (Unsafe.Call h (inv_args i)) tr /\ inv_func i = h_func h).
Proof.
induction tr as [| e tr IH] using rev_ind; [split; intros ? [] |].
cbv zeta in *. rewrite unsafe_run_snoc.
pose proof (unsafe_run_single _ _ tr _ (unsafe_mount_single _ _ f d)) as Hs.
destruct IH as [IHt IHl].
set (s := Unsafe.run (Unsafe.mount f d) tr) in *.
assert (Kt : forall tm, In tm (timers (Unsafe.world s)) ->
          exists h, In (Unsafe.Call h (tm_args tm)) (tr ++ [e]) /\
                    tm_func tm = h_func h).
{ intros tm Hin. destruct (IHt tm Hin) as [h [H1 H2]].
  exists h. split; [apply in_or_app; now left | exact H2]. }
assert (Kl : forall i, In i (log (Unsafe.world s)) ->
          inv_by i = ByTimer /\
          exists h, In (Unsafe.Call h (inv_args i)) (tr ++ [e]) /\
                    inv_func i = h_func h).
{ intros i Hin. destruct (IHl i Hin) as [Hb [h [H1 H2]]].
  split; [exact Hb |]. exists h. split; [apply in_or_app; now left | exact H2]. }
destruct e as [g d' | h a | d' |].
- simpl. destruct (Unsafe.mounted s); simpl; now split.
- rewrite (unsafe_call _ _ s h a Hs). cbn [Unsafe.world timers log]. split.
  + intros tm [<- | []]. exists h. simpl. split; [| reflexivity].
    apply in_or_app. right. now left.
  + exact Kl.
- rewrite unsafe_wait_world.
  destruct Hs as [Ht | [tm [Ht Hr]]].
  + rewrite (elapse_nil _ _ d' _ Ht). cbn [timers log]. split.
    * intros ? [].
    * exact Kl.
  + destruct (Z.le_gt_cases (tm_due tm) (now (Unsafe.world s) + Z.max 0 d'))
      as [Hle | Hgt].
    * rewrite (elapse_due _ _ d' _ tm Ht Hle). cbn [timers log]. split.
      -- intros ? [].
      -- intros i Hin. apply in_app_or in Hin. destruct Hin as [Hin | [<- | []]].
         ++ now apply Kl.
         ++ split; [reflexivity |]. simpl. apply Kt. rewrite Ht. now left.
    * rewrite (elapse_early _ _ d' _ tm Ht Hgt). cbn [timers log]. split.
      -- intros tm' [<- | []]. apply Kt. rewrite Ht. now left.
      -- exact Kl.
- simpl. now split.
Qed.

(** X4. Every call that [useUnsafeDebounce] makes to a wrapped function
    is made by a timer, with the arguments of one of the calls of the
    handle and the function held by that handle: renders, which may
    bring another function, and the unmount call nothing and change
    nothing of a pending call. *)
Theorem unsafe_invocations_come_from_calls
  (f : Func) (d : Z) (tr : list (Unsafe.event Func Args))
  (i : invocation Func Args) :
  In i (log (Unsafe.world (Unsafe.run (Unsafe.mount f d) tr))) ->
  inv_by i = ByTimer /\
  exists h, In (Unsafe.Call h (inv_args i)) tr /\ inv_func i = h_func h.
Proof.
intros Hin. destruct (unsafe_origin f d tr) as [_ H]. now apply H.
Qed.

End DebounceCounting.

Section SafePending.
Variables Func Args : Type.

(** The state after a call of the handle and less than the delay of
    renders and waiting: the timer of the call is pending, the log has
    not moved, and the cells hold the arguments and the latest function. *)
Lemma safe_after_call_quiet
  (f : Func) d (tr : list (Safe.event Func Args)) h (a : Args) evs :
  Safe.alive tr = true ->
  Safe.quiet evs = true ->
  Safe.elapsed evs < timeout (h_delay h) ->
  let s := Safe.run (Safe.mount f d) tr in
  let s' := Safe.run s (Safe.Call h a :: evs) in
  log (Safe.world s') = log (Safe.world s) /\
  timers (Safe.world s') =
    [Timer (next_id (Safe.world s))
           (now (Safe.world s) + timeout (h_delay h)) (h_func h) a] /\
  now (Safe.world s') = now (Safe.world s) + Safe.elapsed evs /\
  Safe.argsRef (Safe.cells s') = Some a /\
  Safe.mounted s' = true /\
  Safe.funcRef (Safe.cells s') = Some (Safe.latest_func f (tr ++ evs)).
Proof.
intros Hal Hq Hel s s'.
destruct (safe_tracks _ _ f d tr) as [Hm [Hf _]]. fold s in Hm, Hf.
pose proof (safe_call _ _ s h a (safe_reach_single _ _ f d tr)) as Hc.
fold s in Hc.
assert (Hrun : s' = Safe.run (Safe.step s (Safe.Call h a)) evs) by reflexivity.
destruct (quiet_run _ _ evs (Safe.step s (Safe.Call h a))
            (Safe.latest_func f tr) Hq) as [E1 [E2 [E3 [E4 [E5 E6]]]]].
- rewrite Hc. cbn [Safe.world timers now]. intros tm [<- | []].
  cbn [tm_due]. lia.
- rewrite Hc. cbn [Safe.mounted]. now rewrite Hm.
- rewrite Hc. cbn [Safe.cells Safe.funcRef]. exact Hf.
- rewrite <- Hrun in *. rewrite Hc in E1, E2, E3, E4.
  cbn [Safe.world Safe.cells Safe.argsRef log timers now] in E1, E2, E3, E4.
  repeat split; try assumption.
  rewrite E6. now rewrite (latest_func_app _ _ tr evs f Hal).
Qed.

(** X1. The cleanup of [useDebounce] does not clear the timer.  For a
    delay up to [max_delay]: a call of the handle, the unmount before the
    delay has passed, and then a wait that reaches the deadline: the wrapped function is called twice
    with the arguments of that call, once by the cleanup at the unmount
    with the function of the latest render, and once more by the timer,
    after the instance is gone, with the function held by the handle. *)
Theorem safe_flush_then_timer
  (f : Func) (d : Z) (tr : list (Safe.event Func Args))
  (h : handle Func) (a : Args) (evs : list (Safe.event Func Args)) (w : Z) :
  Safe.alive tr = true ->
  Safe.quiet evs = true ->
  h_delay h <= max_delay ->
  Safe.elapsed evs < h_delay h ->
  h_delay h <= Safe.elapsed evs + w ->
  let s := Safe.run (Safe.mount f d) tr in
  log (Safe.world
         (Safe.run s (Safe.Call h a :: evs ++ [Safe.Unmount; Safe.Wait w]))) =
  log (Safe.world s) ++
  [Invocation (now (Safe.world s) + Safe.elapsed evs)
              (Safe.latest_func f (tr ++ evs)) a ByCleanup;
   Invocation (now (Safe.world s) + h_delay h) (h_func h) a ByTimer].
Proof.
intros Hal Hq Hmax Hel Hw s.
pose proof (safe_elapsed_nonneg _ _ evs) as Hnn.
assert (E : timeout (h_delay h) = h_delay h)
  by (apply timeout_in_range; lia).
rewrite <- E in Hel, Hw. rewrite <- E.
destruct (safe_after_call_quiet f d tr h a evs Hal Hq Hel)
  as [E1 [E2 [E3 [E4 [E5 E6]]]]].
fold s in E1, E2, E3, E4, E5, E6.
rewrite app_comm_cons, safe_run_app.
set (s' := Safe.run s (Safe.Call h a :: evs)) in *.
rewrite !safe_run_cons. cbn [Safe.run fold_left].
rewrite safe_wait_world. cbn [Safe.step]. rewrite E5. cbn [Safe.world].
unfold Safe.cleanup. rewrite E4, E6.
erewrite (elapse_due _ _ w); [| exact E2 | cbn [invoke now tm_due]; lia].
unfold invoke, fire. cbn [log now tm_due tm_func tm_args].
rewrite E1, E3, <- app_assoc. cbn [app].
match goal with
| |- context [Z.max ?x ?y] => rewrite (Z.max_r x y) by lia
end.
reflexivity.
Qed.

Lemma last_call_from_in (tr : list (Safe.event Func Args)) :
  forall acc h (a : Args),
  Safe.last_call_from acc tr = Some (h, a) ->
  In (Safe.Call h a) tr \/ acc = Some (h, a).
Proof.
induction tr as [| e tr IH]; intros acc h a H; [now right |].
destruct e as [g d' | h' a' | d' |]; simpl in H.
- destruct (IH _ _ _ H) as [K | K]; [left; now right | now right].
- destruct (IH _ _ _ H) as [K | K]; [left; now right |].
  left. left. now inversion K.
- destruct (IH _ _ _ H) as [K | K]; [left; now right | now right].
- destruct (IH _ _ _ H) as [K | K]; [left; now right | now right].
Qed.

Lemma last_call_in (tr : list (Safe.event Func Args)) h (a : Args) :
  Safe.last_call tr = Some (h, a) -> In (Safe.Call h a) tr.
Proof.
intros H. destruct (last_call_from_in tr None h a H) as [K | K];
  [exact K | discriminate].
Qed.

(** The log of the safe hook holds only arguments that calls of the
    handle brought. *)
Lemma safe_log_args (f : Func) d (tr : list (Safe.event Func Args)) :
  forall i, In i (log (Safe.world (Safe.run (Safe.mount f d) tr))) ->
  exists h, In (Safe.Call h (inv_args i)) tr.
Proof.
induction tr as [| e tr IH] using rev_ind; [intros ? [] |].
rewrite safe_run_snoc.
destruct (safe_tracks _ _ f d tr) as [Hm [Hf [Ha [Ht _]]]].
pose proof (safe_reach_single _ _ f d tr) as Hs.
set (s := Safe.run (Safe.mount f d) tr) in *.
assert (K : forall i, In i (log (Safe.world s)) ->
          exists h, In (Safe.Call h (inv_args i)) (tr ++ [e])).
{ intros i Hin. destruct (IH i Hin) as [h Hh]. exists h.
  apply in_or_app. now left. }
destruct e as [g d' | h a | d' |].
- simpl. destruct (Safe.mounted s); exact K.
- rewrite (safe_call _ _ s h a Hs). exact K.
- rewrite safe_wait_world.
  destruct Ht as [Ht | [tm [hh [Ht [Hr [Hc Hfn]]]]]].
  + rewrite (elapse_nil _ _ d' _ Ht). exact K.
  + destruct (Z.le_gt_cases (tm_due tm) (now (Safe.world s) + Z.max 0 d'))
      as [Hle | Hgt].
    * rewrite (elapse_due _ _ d' _ tm Ht Hle). cbn [log].
      intros i Hin. apply in_app_or in Hin. destruct Hin as [Hin | [<- | []]].
      -- now apply K.
      -- exists hh. simpl. apply in_or_app. left. now apply last_call_in.
    * rewrite (elapse_early _ _ d' _ tm Ht Hgt). exact K.
- cbn [Safe.step]. destruct (Safe.mounted s); [| exact K].
  cbn [Safe.world]. unfold Safe.cleanup. rewrite Ha, Hf.
  destruct (Safe.last_call tr) as [[hh a] |] eqn:El; simpl; [| exact K].
  intros i Hin. apply in_app_or in Hin. destruct Hin as [Hin | [<- | []]].
  + now apply K.
  + exists hh. simpl. apply in_or_app. left. now apply last_call_in.
Qed.

End SafePending.

(** ** More on [useDebouncedState] *)

Section MoreStateFacts.
Variables V Func : Type.
Variable V_eq_dec : forall x y : V, {x = y} + {x <> y}.
Implicit Types (s : DebouncedState.inst V Func)
  (e : DebouncedState.event V Func) (p : DebouncedState.props V Func).

Local Abbreviation dstep := (DebouncedState.step V_eq_dec).
Local Abbreviation drun := (DebouncedState.run V_eq_dec).
Local Abbreviation dmount := (DebouncedState.mount V_eq_dec).

Lemma ds_mount_settled p : ds_settled (dmount p).
Proof.
unfold ds_settled, DebouncedState.mount, DebouncedState.sync,
  DebouncedState.rerender. simpl.
destruct (V_eq_dec (DebouncedState.p_state p) (DebouncedState.p_state p));
  simpl; now split.
Qed.

Lemma ds_run_settled tr : forall s, ds_settled s -> ds_settled (drun s tr).
Proof.
induction tr as [| e tr IH]; intros s Hs; [exact Hs |].
rewrite ds_run_cons. apply IH. now apply ds_step_settled.
Qed.

Lemma ds_run_app s tr1 tr2 : drun s (tr1 ++ tr2) = drun (drun s tr1) tr2.
Proof. unfold DebouncedState.run. now rewrite fold_left_app. Qed.

(** One event of [useDebouncedState] is, for the inner hook, the event
    that [ds_proj] gives. *)
Lemma ds_inner_step s e :
  ds_settled s ->
  ds_inner (dstep s e) = Safe.step (ds_inner s) (ds_proj e).
Proof.
intros [H1 H2]. destruct s as [i r l [t a fr] m w]. simpl in H1, H2. subst r fr.
destruct e as [p | h v | d |].
- unfold ds_inner. simpl. destruct m; [| reflexivity].
  destruct (V_eq_dec (DebouncedState.p_state p) (DebouncedState.p_state l));
    [reflexivity |].
  unfold DebouncedState.sync, DebouncedState.rerender. simpl.
  destruct (V_eq_dec (DebouncedState.p_state p) i); reflexivity.
- unfold ds_inner. simpl.
  unfold DebouncedState.rerender, DebouncedState.handleSetState,
    Safe.debounced, setTimeout.
  destruct m; reflexivity.
- reflexivity.
- unfold ds_inner. simpl. destruct m; reflexivity.
Qed.

Lemma ds_inner_run tr : forall s,
  ds_settled s ->
  ds_inner (drun s tr) = Safe.run (ds_inner s) (map ds_proj tr).
Proof.
induction tr as [| e tr IH]; intros s Hs; [reflexivity |].
rewrite ds_run_cons. cbn [map]. rewrite safe_run_cons.
rewrite <- (ds_inner_step s e Hs). apply IH. now apply ds_step_settled.
Qed.

Lemma ds_inner_mount p :
  ds_inner (dmount p) =
  Safe.mount (DebouncedState.p_setState p) (DebouncedState.p_delay p).
Proof.
unfold ds_inner, DebouncedState.mount, DebouncedState.sync,
  DebouncedState.rerender. simpl.
destruct (V_eq_dec (DebouncedState.p_state p) (DebouncedState.p_state p));
  reflexivity.
Qed.

Lemma ds_sim p tr :
  ds_inner (drun (dmount p) tr) =
  Safe.run (Safe.mount (DebouncedState.p_setState p) (DebouncedState.p_delay p))
           (map ds_proj tr).
Proof.
rewrite (ds_inner_run tr (dmount p) (ds_mount_settled p)).
now rewrite ds_inner_mount.
Qed.

Lemma ds_proj_alive (tr : list (DebouncedState.event V Func)) :
  Safe.alive (map ds_proj tr) = DebouncedState.alive tr.
Proof.
induction tr as [| e tr IH]; [reflexivity |].
simpl. rewrite <- IH. destruct e; reflexivity.
Qed.

Lemma ds_proj_quiet (tr : list (DebouncedState.event V Func)) :
  Safe.quiet (map ds_proj tr) = ds_calm tr.
Proof.
induction tr as [| e tr IH]; [reflexivity |].
simpl. rewrite <- IH. destruct e; reflexivity.
Qed.

Lemma ds_proj_elapsed (tr : list (DebouncedState.event V Func)) :
  Safe.elapsed (map ds_proj tr) = DebouncedState.elapsed tr.
Proof.
induction tr as [| e tr IH]; [reflexivity |].
destruct e; simpl; now rewrite IH.
Qed.

(** X6. The debounce part of [useDebouncedState] is [useDebounce(setState,
    delay)]: after any trace, the cells of the inner hook, the mounted
    flag and the host (clock, pending timer, log of calls to the external
    setter) are those of [useDebounce] mounted with the first [setState]
    and [delay] and run on the trace read as renders of the inner hook
    and calls of its handle. *)
Theorem debounced_state_runs_useDebounce
  p (tr : list (DebouncedState.event V Func)) :
  ds_inner (drun (dmount p) tr) =
  Safe.run (Safe.mount (DebouncedState.p_setState p) (DebouncedState.p_delay p))
           (map ds_proj tr).
Proof. apply ds_sim. Qed.

Lemma ds_shown_run (tr : list (DebouncedState.event V Func)) : forall s,
  ds_settled s ->
  DebouncedState.internalState (drun s tr) =
  if DebouncedState.mounted s
  then ds_shown V_eq_dec (DebouncedState.internalState s)
                (DebouncedState.p_state (DebouncedState.last s)) tr
  else DebouncedState.internalState s.
Proof.
induction tr as [| e tr IH]; intros s Hs.
- simpl. now destruct (DebouncedState.mounted s).
- rewrite ds_run_cons.
  rewrite (IH _ (ds_step_settled _ _ V_eq_dec s e Hs)). clear IH.
  destruct Hs as [H1 H2].
  destruct s as [i r l [t a fr] m w]. simpl in H1, H2. subst r fr.
  destruct e as [p | h v | d |]; cbn [ds_shown].
  + simpl. destruct m; [| reflexivity].
    destruct (V_eq_dec (DebouncedState.p_state p) (DebouncedState.p_state l))
      as [E | N]; simpl.
    * now rewrite E.
    * unfold DebouncedState.sync, DebouncedState.rerender. simpl.
      destruct (V_eq_dec (DebouncedState.p_state p) i) as [E' | N'];
        simpl; [now rewrite <- E' | reflexivity].
  + simpl.
    unfold DebouncedState.rerender, DebouncedState.handleSetState,
      Safe.debounced, setTimeout.
    destruct m; reflexivity.
  + simpl. reflexivity.
  + simpl. destruct m; reflexivity.
Qed.

(** X7. The value that [useDebouncedState] shows is the latest of the
    local edits and the changes of the external value: after any trace it
    is the value of the last call of the setter or the [state] of the
    last render whose [state] differed from the render before,
    whichever came later; renders with an unchanged [state], waiting and
    timers leave it alone, and nothing moves it after the unmount. *)
Theorem shown_value_is_latest_edit_or_external_change
  p (tr : list (DebouncedState.event V Func)) :
  DebouncedState.internalState (drun (dmount p) tr) =
  ds_shown V_eq_dec (DebouncedState.p_state p) (DebouncedState.p_state p) tr.
Proof.
rewrite (ds_shown_run tr (dmount p) (ds_mount_settled p)).
rewrite (ds_mount_mounted _ _ V_eq_dec p).
assert (E : DebouncedState.internalState (dmount p) = DebouncedState.p_state p /\
            DebouncedState.last (dmount p) = p).
{ unfold DebouncedState.mount, DebouncedState.sync, DebouncedState.rerender.
  simpl.
  destruct (V_eq_dec (DebouncedState.p_state p) (DebouncedState.p_state p));
    simpl; now split. }
destruct E as [E1 E2]. now rewrite E1, E2.
Qed.

Lemma ds_world_sim p (tr : list (DebouncedState.event V Func)) :
  DebouncedState.world (drun (dmount p) tr) =
  Safe.world
    (Safe.run (Safe.mount (DebouncedState.p_setState p)
                          (DebouncedState.p_delay p))
              (map ds_proj tr)).
Proof. rewrite <- ds_sim. reflexivity. Qed.

(** X8. A change of the external value does not cancel or alter a
    pending propagation.  For a delay up to [max_delay]: after a call of
    the setter with [v], whatever
    renders come before the delay has passed, also with another external
    value, another [setState] or another delay, the timer calls the
    [setState] held by the handle with [v], the delay after the call of
    the setter, and that is the only call made. *)
Theorem pending_propagation_survives_renders
  p (tr : list (DebouncedState.event V Func)) (h : handle Func) (v : V)
  (evs : list (DebouncedState.event V Func)) (w : Z) :
  DebouncedState.alive tr = true ->
  ds_calm evs = true ->
  h_delay h <= max_delay ->
  DebouncedState.elapsed evs < h_delay h ->
  h_delay h <= DebouncedState.elapsed evs + w ->
  let s := drun (dmount p) tr in
  log (DebouncedState.world
         (drun s (DebouncedState.SetValue h v :: evs ++ [DebouncedState.Wait w]))) =
  log (DebouncedState.world s) ++
  [Invocation (now (DebouncedState.world s) + h_delay h) (h_func h) v ByTimer].
Proof.
intros Hal Hq Hmax Hel Hw s. unfold s.
pose proof (ds_elapsed_nonneg _ _ evs) as Hnn.
assert (E : timeout (h_delay h) = h_delay h)
  by (apply timeout_in_range; lia).
rewrite <- E in Hel, Hw. rewrite <- E.
rewrite <- ds_run_app, !ds_world_sim.
rewrite map_app. cbn [map]. rewrite map_app. cbn [map ds_proj].
rewrite <- ds_proj_alive in Hal. rewrite <- ds_proj_quiet in Hq.
rewrite <- ds_proj_elapsed in Hel, Hw.
set (f := DebouncedState.p_setState p). set (d := DebouncedState.p_delay p).
destruct (safe_after_call_quiet _ _ f d (map ds_proj tr) h v
            (map ds_proj evs) Hal Hq Hel) as [E1 [E2 [E3 _]]].
rewrite safe_run_app, app_comm_cons, safe_run_app, safe_run_one.
rewrite safe_wait_world.
erewrite (elapse_due _ _ w); [| exact E2 | cbn [tm_due]; rewrite E3; lia].
unfold fire. cbn [log tm_due tm_func tm_args]. rewrite E1, E3.
match goal with
| |- context [Z.max ?x ?y] => rewrite (Z.max_r x y) by lia
end.
reflexivity.
Qed.

(** X9. The unmount delivers a pending local edit.  For a delay up to
    [max_delay]: after a call of the setter with [v] and less than the
    delay of renders and waiting, the
    unmount calls the [setState] of the latest render with [v], at once,
    and that is the only call made up to then. *)
Theorem unmount_delivers_pending_edit
  p (tr : list (DebouncedState.event V Func)) (h : handle Func) (v : V)
  (evs : list (DebouncedState.event V Func)) :
  DebouncedState.alive tr = true ->
  ds_calm evs = true ->
  h_delay h <= max_delay ->
  DebouncedState.elapsed evs < h_delay h ->
  let s := drun (dmount p) tr in
  let s' := drun s (DebouncedState.SetValue h v :: evs) in
  log (DebouncedState.world (dstep s' DebouncedState.Unmount)) =
  log (DebouncedState.world s) ++
  [Invocation (now (DebouncedState.world s) + DebouncedState.elapsed evs)
              (DebouncedState.p_setState (DebouncedState.last s')) v
              ByCleanup].
Proof.
intros Hal Hq Hmax Hel s s'.
pose proof (ds_elapsed_nonneg _ _ evs) as Hnn.
assert (E : timeout (h_delay h) = h_delay h)
  by (apply timeout_in_range; lia).
rewrite <- E in Hel.
assert (Hset : ds_settled s').
{ unfold s', s. apply ds_run_settled, ds_run_settled, ds_mount_settled. }
destruct Hset as [_ Hf].
assert (Hin : ds_inner s' =
              Safe.run
                (Safe.run (Safe.mount (DebouncedState.p_setState p)
                                      (DebouncedState.p_delay p))
                          (map ds_proj tr))
                (Safe.Call h v :: map ds_proj evs)).
{ unfold s', s. rewrite <- ds_run_app, ds_sim, map_app, safe_run_app.
  reflexivity. }
rewrite <- ds_proj_alive in Hal. rewrite <- ds_proj_quiet in Hq.
rewrite <- ds_proj_elapsed in Hel. rewrite <- ds_proj_elapsed.
destruct (safe_after_call_quiet _ _ (DebouncedState.p_setState p)
            (DebouncedState.p_delay p) (map ds_proj tr) h v
            (map ds_proj evs) Hal Hq Hel) as [E1 [_ [E3 [E4 [E5 _]]]]].
rewrite <- Hin in E1, E3, E4, E5.
cbn [ds_inner Safe.world Safe.cells Safe.mounted] in E1, E3, E4, E5.
assert (Hws : DebouncedState.world s =
              Safe.world
                (Safe.run (Safe.mount (DebouncedState.p_setState p)
                                      (DebouncedState.p_delay p))
                          (map ds_proj tr)))
  by (unfold s; apply ds_world_sim).
rewrite Hws.
cbn [DebouncedState.step]. rewrite E5. cbn [DebouncedState.world].
unfold Safe.cleanup. rewrite E4, Hf. unfold invoke. cbn [log].
now rewrite E1, E3.
Qed.

(** X10. The external setter only ever receives values that were given
    to the setter of the pair: every call in the log carries the value
    of some call of the setter in the trace.  External values, which
    come in through renders, are never sent back. *)
Theorem setter_receives_only_local_edits
  p (tr : list (DebouncedState.event V Func)) (i : invocation Func V) :
  In i (log (DebouncedState.world (drun (dmount p) tr))) ->
  exists h, In (DebouncedState.SetValue h (inv_args i)) tr.
Proof.
rewrite ds_world_sim. intros Hin.
destruct (safe_log_args _ _ _ _ _ i Hin) as [h Hh].
exists h. apply in_map_iff in Hh. destruct Hh as [e [He Hi]].
destruct e as [q | h' v' | d' |]; simpl in He; try discriminate.
inversion He; subst. exact Hi.
Qed.

End MoreStateFacts.

(** ** More scenarios *)

Section MoreScenarios.
Open Scope string_scope.
Open Scope list_scope.

Ltac zdone := vm_compute; repeat split; (reflexivity || discriminate).

(** A call, the unmount at 50, and the timer still fires at 500: two
    calls with the same arguments. *)
Lemma safe_flush_then_timer_witness :
  log (Safe.world
         (Safe.run (Safe.run (Safe.mount "save" 500) [])
            (Safe.Call save500 ["42"] ::
             [Safe.Wait 50] ++ [Safe.Unmount; Safe.Wait 450])))
  = [Invocation 50 "save" ["42"] ByCleanup;
     Invocation 500 "save" ["42"] ByTimer].
Proof.
apply (safe_flush_then_timer string (list string) "save" 500 []
         save500 ["42"] [Safe.Wait 50] 450).
- reflexivity.
- reflexivity.
- zdone.
- simpl; lia.
- simpl; lia.
Defined.

(** Calls at 0 and at 500, each left alone for the delay: both are
    delivered, at 500 and at 1000. *)
Lemma spaced_calls_all_fire_witness :
  log (Unsafe.world
         (Unsafe.run (Unsafe.mount "save" 500)
            (unsafe_spaced save500 [(["a"], 500); (["b"], 700)])))
  = [Invocation 500 "save" ["a"] ByTimer;
     Invocation 1000 "save" ["b"] ByTimer] /\
  log (Safe.world
         (Safe.run (Safe.mount "save" 500)
            (safe_spaced save500 [(["a"], 500); (["b"], 700)])))
  = [Invocation 500 "save" ["a"] ByTimer;
     Invocation 1000 "save" ["b"] ByTimer].
Proof.
apply (spaced_calls_all_fire string (list string) save500
         [(["a"], 500); (["b"], 700)]
         (Unsafe.mount "save" 500) (Safe.mount "save" 500)).
- zdone.
- apply Forall_cons; [simpl; lia |].
  apply Forall_cons; [simpl; lia | apply Forall_nil].
- reflexivity.
- reflexivity.
Defined.

(** A call with [a], the unmount at 100, and a call with [b] through the
    handle that is still around: [a] is never delivered by a timer, [b]
    is, at 600. *)
Lemma call_supersedes_pending_witness :
  log (Unsafe.world
         (Unsafe.run
            (Unsafe.run (Unsafe.mount "save" 500)
               [Unsafe.Call save500 ["a"]; Unsafe.Wait 100; Unsafe.Unmount])
            [Unsafe.Call save500 ["b"]; Unsafe.Wait 500]))
  = [Invocation 600 "save" ["b"] ByTimer] /\
  log (Safe.world
         (Safe.run
            (Safe.run (Safe.mount "save" 500)
               [Safe.Call save500 ["a"]; Safe.Wait 100; Safe.Unmount])
            [Safe.Call save500 ["b"]; Safe.Wait 500]))
  = [Invocation 100 "save" ["a"] ByCleanup;
     Invocation 600 "save" ["b"] ByTimer].
Proof.
destruct (call_supersedes_pending string (list string) "save" 500
            [Unsafe.Call save500 ["a"]; Unsafe.Wait 100; Unsafe.Unmount]
            [Safe.Call save500 ["a"]; Safe.Wait 100; Safe.Unmount]
            save500 ["b"] 500) as [[Hu _] [Hs _]].
- zdone.
- split; [exact Hu | exact Hs].
Defined.

(** The function changes to [f2] and the instance unmounts while the call
    is pending: the call in the log is by the timer, with [f1]. *)
Lemma unsafe_invocations_witness :
  ByTimer = ByTimer /\
  exists h,
    In (Unsafe.Call h ["a"])
       [Unsafe.Call f1_500 ["a"]; Unsafe.Render "f2" 500; Unsafe.Unmount;
        Unsafe.Wait 500] /\
    "f1" = h_func h.
Proof.
apply (unsafe_invocations_come_from_calls string (list string) "f1" 500
         [Unsafe.Call f1_500 ["a"]; Unsafe.Render "f2" 500; Unsafe.Unmount;
          Unsafe.Wait 500]
         (Invocation 500 "f1" ["a"] ByTimer)).
simpl. left. reflexivity.
Defined.

(** External value [x], a local edit [y] at 0, the external value becomes
    [z] at 100: at 500 the external setter is called with [y]. *)
Lemma pending_propagation_witness :
  log (DebouncedState.world
         (DebouncedState.run string_dec
            (DebouncedState.run string_dec
               (DebouncedState.mount string_dec (propsX "x")) [])
            (DebouncedState.SetValue setX500 "y" ::
             [DebouncedState.Wait 100; DebouncedState.Render (propsX "z")] ++
             [DebouncedState.Wait 400])))
  = [Invocation 500 "setX" "y" ByTimer].
Proof.
apply (pending_propagation_survives_renders string string string_dec
         (propsX "x") [] setX500 "y"
         [DebouncedState.Wait 100; DebouncedState.Render (propsX "z")] 400).
- reflexivity.
- reflexivity.
- zdone.
- simpl; lia.
- simpl; lia.
Defined.

(** A local edit [y], a render with another setter at 50, and the
    unmount: the new setter is called with [y] at 50. *)
Lemma unmount_delivers_witness :
  log (DebouncedState.world
         (DebouncedState.step string_dec
            (DebouncedState.run string_dec
               (DebouncedState.run string_dec
                  (DebouncedState.mount string_dec (propsX "x")) [])
               (DebouncedState.SetValue setX500 "y" ::
                [DebouncedState.Wait 50;
                 DebouncedState.Render (DebouncedState.Props "x" "setX2" 500)]))
            DebouncedState.Unmount))
  = [Invocation 50 "setX2" "y" ByCleanup].
Proof.
apply (unmount_delivers_pending_edit string string string_dec
         (propsX "x") [] setX500 "y"
         [DebouncedState.Wait 50;
          DebouncedState.Render (DebouncedState.Props "x" "setX2" 500)]).
- reflexivity.
- reflexivity.
- zdone.
- simpl; lia.
Defined.

Lemma setter_receives_witness :
  exists h,
    In (DebouncedState.SetValue h "y")
       [DebouncedState.SetValue setX500 "y";
        DebouncedState.Render (propsX "z"); DebouncedState.Wait 500].
Proof.
apply (setter_receives_only_local_edits string string string_dec
         (propsX "x")
         [DebouncedState.SetValue setX500 "y";
          DebouncedState.Render (propsX "z"); DebouncedState.Wait 500]
         (Invocation 500 "setX" "y" ByTimer)).
simpl. left. reflexivity.
Defined.

End MoreScenarios.
